(** * Secondary indexes of the block ledger: [openchain/ledger/blockchain_indexes.go]

    A shallow embedding of the index key/value codec, of the per-block
    extraction of index entries into a write batch, and of the synchronous
    indexer, followed by the properties established about them. *)

From Stdlib Require Import ZArith Lia List String.
From Stdlib Require Import Strings.Byte Sorting.Sorted.
From stdpp Require Import gmap strings list fin_maps.

Local Open Scope Z_scope.

(** ** Machine data: [byte] and [uint64] *)

Abbreviation byte := Byte.byte.

(** [uint64(b)] for a byte [b]. *)
Definition byte_to_Z (b : byte) : Z := Z.of_N (Byte.to_N b).

(** [uint8(x)]: conversion to a byte keeps the low eight bits. *)
Definition uint8 (x : Z) : byte :=
  match Byte.of_N (Z.to_N (x mod 256)) with
  | Some b => b
  | None => x00
  end.

(** Values of type [uint64] are the integers in [0, 2^64). *)
Definition is_uint64 (x : Z) : Prop := 0 <= x < 2 ^ 64.

(** Results of 64-bit operations are kept modulo [2^64]. *)
Definition wrap64 (x : Z) : Z := x mod 2 ^ 64.

(** [[]byte(s)] for a Go string [s]. *)
Definition bytes_of_string (s : string) : list byte := list_byte_of_string s.

#[global] Instance byte_eq_dec : EqDecision byte := Byte.byte_eq_dec.
#[global] Program Instance byte_countable : Countable byte :=
  inj_countable Byte.to_N Byte.of_N _.
Next Obligation. intros b. apply Byte.of_to_N. Qed.

(** ** Errors

    Go's [error] values that this file can produce or pass on; [None] of
    type [option error] is Go's [nil] error. *)
Inductive error : Type :=
| io_ErrUnexpectedEOF                 (* io.ErrUnexpectedEOF *)
| proto_errOverflow                   (* proto: integer overflow *)
| errorString (msg : string).         (* fmt.Errorf / errors.New *)

(** ** Package [proto]: variable-width integers and buffers *)
Module proto.

(** Modelled from the spec: package [proto] (github.com/golang/protobuf) is
    not under src/.  The spec describes the encoding as the smallest
    self-delimiting one in which the high bit of each byte marks
    continuation; the definitions follow the library's loops.
    [maxVarintBytes] is the capacity of the array [EncodeVarint] fills. *)
Definition maxVarintBytes : nat := 10.

(** Modelled from the spec: the loop of [EncodeVarint]:
    [for n = 0; x > 127; n++ { buf[n] = 0x80 | uint8(x&0x7F); x >>= 7 }]
    followed by [buf[n] = uint8(x)].  [room] is the number of free cells of
    the array; a write past it is not modelled (the list ends). *)
Fixpoint EncodeVarint_loop (room : nat) (x : Z) : list byte :=
  match room with
  | O => []
  | S room' =>
      if 127 <? x
      then uint8 (Z.lor 0x80 (Z.land x 0x7F)) :: EncodeVarint_loop room' (Z.shiftr x 7)
      else [uint8 x]
  end.

(** Modelled from the spec: [proto.EncodeVarint(x uint64) []byte]. *)
Definition EncodeVarint (x : Z) : list byte :=
  EncodeVarint_loop maxVarintBytes x.

(** Modelled from the spec: the three ways out of the decoding loop, each
    with the accumulated [x], so that each caller can report them its own
    way. *)
Inductive varint_result : Type :=
| VarintOk (x : Z) (n : nat)          (* value and index after the last byte *)
| VarintEOF (x : Z)                   (* buffer ended; [x] accumulated so far *)
| VarintOverflow (x : Z).             (* more than 64 bits *)

(** Modelled from the spec: the loop shared by [DecodeVarint] and
    [Buffer.DecodeVarint], over the bytes [rest] still unread from index [n]:
    [for shift := 0; shift < 64; shift += 7 {
       if n >= len(buf) { fail }
       b := buf[n]; n++; x |= (uint64(b) & 0x7F) << shift
       if b < 0x80 { return x, n } }]
    and failure once [shift] reaches 64. *)
Fixpoint DecodeVarint_loop (rest : list byte) (shift : Z) (x : Z) (n : nat)
  : varint_result :=
  if 64 <=? shift then VarintOverflow x else
  match rest with
  | [] => VarintEOF x
  | b :: rest' =>
      let x' := Z.lor x (wrap64 (Z.shiftl (Z.land (byte_to_Z b) 0x7F) shift)) in
      if byte_to_Z b <? 0x80
      then VarintOk x' (S n)
      else DecodeVarint_loop rest' (shift + 7) x' (S n)
  end.

(** Modelled from the spec: [proto.DecodeVarint(buf []byte) (x uint64, n int)];
    it returns [0, 0] when the integer is truncated or too large. *)
Definition DecodeVarint (buf : list byte) : Z * nat :=
  match DecodeVarint_loop buf 0 0 0 with
  | VarintOk x n => (x, n)
  | VarintEOF _ | VarintOverflow _ => (0, 0%nat)
  end.

(** Modelled from the spec: [proto.Buffer], the bytes and the read index. *)
Record Buffer : Type := mkBuffer { buf : list byte; index : nat }.

(** Modelled from the spec: [proto.NewBuffer] and [Buffer.Bytes]. *)
Definition NewBuffer (e : list byte) : Buffer := {| buf := e; index := 0 |}.

(** Modelled from the spec: the bytes written so far. *)
Definition Bytes (p : Buffer) : list byte := buf p.

(** Modelled from the spec: [Buffer.EncodeVarint], which appends the same
    bytes to the buffer:
    [for x >= 1<<7 { p.buf = append(p.buf, uint8(x&0x7f|0x80)); x >>= 7 }]
    then [p.buf = append(p.buf, uint8(x))].  [fuel] bounds the number of
    iterations; ten are enough for a uint64, as for the array above. *)
Fixpoint Buffer_EncodeVarint_loop (fuel : nat) (bs : list byte) (x : Z) : list byte :=
  match fuel with
  | O => bs
  | S fuel' =>
      if 128 <=? x
      then Buffer_EncodeVarint_loop fuel' (bs ++ [uint8 (Z.lor (Z.land x 0x7F) 0x80)])
             (Z.shiftr x 7)
      else bs ++ [uint8 x]
  end.

(** Modelled from the spec: [Buffer.EncodeVarint]; its error, always nil, is
    left out. *)
Definition Buffer_EncodeVarint (p : Buffer) (x : Z) : Buffer :=
  {| buf := Buffer_EncodeVarint_loop maxVarintBytes (buf p) x; index := index p |}.

(** Modelled from the spec: [Buffer.EncodeRawBytes]: the length as a
    variable-width integer, then the bytes. *)
Definition Buffer_EncodeRawBytes (p : Buffer) (b : list byte) : Buffer :=
  let p1 := Buffer_EncodeVarint p (Z.of_nat (length b)) in
  {| buf := buf p1 ++ b; index := index p1 |}.

(** Modelled from the spec: [Buffer.DecodeVarint() (x uint64, err error)]:
    the same loop from [p.index]; the index moves only on success, and on
    failure the named result [x] holds what was accumulated. *)
Definition Buffer_DecodeVarint (p : Buffer) : Z * option error * Buffer :=
  match DecodeVarint_loop (drop (index p) (buf p)) 0 0 (index p) with
  | VarintOk x i => (x, None, {| buf := buf p; index := i |})
  | VarintEOF x => (x, Some io_ErrUnexpectedEOF, p)
  | VarintOverflow x => (x, Some proto_errOverflow, p)
  end.

End proto.

(** ** Package [protos]: the block and transaction records *)
Module protos.

(** Modelled from the spec: the block/transaction schema (package [protos])
    is not under src/.  Only what the indexing code reads is needed: the
    ordered transactions of a block, and a transaction's type and
    deployed-unit identifier; the other fields stand for the rest of the
    record. *)
Inductive Transaction_Type : Type :=
| Transaction_UNDEFINED
| Transaction_CHAINLET_NEW
| Transaction_CHAINLET_UPDATE
| Transaction_CHAINLET_EXECUTE
| Transaction_CHAINLET_QUERY
| Transaction_CHAINLET_TERMINATE.

(** Modelled from the spec: the deployed-unit identifier. *)
Record ChainletID : Type := mkChainletID { Url : string; Version : string }.

(** Modelled from the spec: a transaction; [Type_] and [ChainletID_] are the
    fields the indexing code reads. *)
Record Transaction : Type := mkTransaction {
  Type_ : Transaction_Type;
  ChainletID_ : option ChainletID;       (* a pointer, possibly nil *)
  Payload : list byte;
  Uuid : string
}.

(** Modelled from the spec: a block and its ordered transactions. *)
Record Block : Type := mkBlock {
  Transactions : list Transaction;
  StateHash : list byte;
  PreviousBlockHash : list byte
}.

(** Modelled from the spec: the getter of the transaction list; generated
    getters accept a nil receiver. *)
Definition GetTransactions (block : option Block) : list Transaction :=
  match block with
  | Some b => Transactions b
  | None => []
  end.

(** Modelled from the spec: the getter of the deployed-unit identifier. *)
Definition GetChainletID (tx : Transaction) : option ChainletID := ChainletID_ tx.

End protos.

(** ** Package [gorocksdb]: write batches *)
Module gorocksdb.

(** Modelled from the spec: the key-value engine is an external
    collaborator.  A column family is a namespace of the store; a write
    batch is the ordered sequence of puts that is committed as one unit. *)
Inductive ColumnFamilyHandle : Type :=
| BlockchainCF | StateCF | StateDeltaCF | IndexesCF.

(** Modelled from the spec: one put of a batch. *)
Record put : Type := mkPut {
  put_cf : ColumnFamilyHandle;
  put_key : list byte;
  put_value : list byte
}.

(** Modelled from the spec: a write batch, in the order of its puts. *)
Definition WriteBatch : Type := list put.

(** Modelled from the spec: [WriteBatch.PutCF] queues one more put. *)
Definition PutCF (wb : WriteBatch) (cf : ColumnFamilyHandle)
    (key value : list byte) : WriteBatch :=
  wb ++ [mkPut cf key value].

(** Modelled from the spec: committing a batch to one namespace: the puts of
    that column family are applied in order, a later put to a key replacing
    an earlier one. *)
Definition apply_put (cf : ColumnFamilyHandle)
    (m : gmap (list byte) (list byte)) (p : put) : gmap (list byte) (list byte) :=
  match p with
  | mkPut cf' k v =>
      match cf, cf' with
      | BlockchainCF, BlockchainCF | StateCF, StateCF
      | StateDeltaCF, StateDeltaCF | IndexesCF, IndexesCF => <[k := v]> m
      | _, _ => m
      end
  end.

(** Modelled from the spec: the contents of a namespace after the batch. *)
Definition commit (cf : ColumnFamilyHandle) (m : gmap (list byte) (list byte))
    (wb : WriteBatch) : gmap (list byte) (list byte) :=
  foldl (apply_put cf) m wb.

End gorocksdb.

(** ** Package [db]: the handle of the ledger's store *)
Module db.

(** Modelled from the spec: package [db] is not under src/.  The handle
    offers a point read of the index namespace,
    [GetFromIndexesCF(key []byte) ([]byte, error)]; it is taken as a
    parameter of the functions that read the store. *)
Record OpenchainDB : Type := mkOpenchainDB {
  GetFromIndexesCF : list byte -> list byte * option error
}.

(** Modelled from the spec: the handle's column family of the indexes. *)
Definition IndexesCF (openchainDB : OpenchainDB) : gorocksdb.ColumnFamilyHandle :=
  gorocksdb.IndexesCF.

(** Modelled from the spec: a handle over given contents of the index
    namespace.  The spec keeps an absent key ([NotFound]) apart from a
    failure of the engine ([StoreError]): the read of an absent key is no
    failure of the engine, so it yields no bytes and no error, which is
    what the engine's Get does. *)
Definition handle_over (indexes : gmap (list byte) (list byte)) : OpenchainDB :=
  {| GetFromIndexesCF := fun key =>
       match indexes !! key with
       | Some value => (value, None)
       | None => ([], None)
       end |}.

(** Modelled from the spec: a handle whose engine fails every read with
    the error [e]. *)
Definition failing_handle (e : error) : OpenchainDB :=
  {| GetFromIndexesCF := fun _ => ([], Some e) |}.

End db.

(** ** Package [ledger]: the index codec *)

Definition prefixBlockHashKey : byte := uint8 1.
Definition prefixTxGUIDKey : byte := uint8 2.
Definition prefixAddressBlockNumCompositeKey : byte := uint8 3.

Definition prependKeyPrefix (prefix : byte) (key : list byte) : list byte :=
  let modifiedKey := [] in
  let modifiedKey := modifiedKey ++ [prefix] in
  let modifiedKey := modifiedKey ++ key in
  modifiedKey.

Definition encodeBlockNumber (blockNumber : Z) : list byte :=
  proto.EncodeVarint blockNumber.

(** [blockNumber, _ = proto.DecodeVarint(blockNumberBytes)]: the count of
    bytes read is dropped. *)
Definition decodeBlockNumber (blockNumberBytes : list byte) : Z :=
  let '(blockNumber, _) := proto.DecodeVarint blockNumberBytes in
  blockNumber.

Definition encodeBlockNumTxIndex (blockNumber txIndexInBlock : Z) : list byte :=
  let b := proto.NewBuffer [] in
  let b := proto.Buffer_EncodeVarint b blockNumber in
  let b := proto.Buffer_EncodeVarint b txIndexInBlock in
  proto.Bytes b.

(** The named results [blockNum], [txIndex] and [err] start at zero and nil;
    each early [return] gives back what they hold at that point. *)
Definition decodeBlockNumTxIndex (bytes : list byte) : Z * Z * option error :=
  let b := proto.NewBuffer bytes in
  let '(blockNum, err, b) := proto.Buffer_DecodeVarint b in
  match err with
  | Some _ => (blockNum, 0, err)
  | None =>
      let '(txIndex, err, b) := proto.Buffer_DecodeVarint b in
      match err with
      | Some _ => (blockNum, txIndex, err)
      | None => (blockNum, txIndex, err)
      end
  end.

Definition encodeBlockHashKey (blockHash : list byte) : list byte :=
  prependKeyPrefix prefixBlockHashKey blockHash.

Definition encodeTxGUIDKey (guidBytes : list byte) : list byte :=
  prependKeyPrefix prefixTxGUIDKey guidBytes.

Definition encodeAddressBlockNumCompositeKey (address : string) (blockNumber : Z)
  : list byte :=
  let b := proto.NewBuffer [prefixAddressBlockNumCompositeKey] in
  let b := proto.Buffer_EncodeRawBytes b (bytes_of_string address) in
  let b := proto.Buffer_EncodeVarint b blockNumber in
  proto.Bytes b.

Definition encodeListTxIndexes (listTx : list Z) : list byte :=
  let b := proto.NewBuffer [] in
  let b := foldl proto.Buffer_EncodeVarint b listTx in
  proto.Bytes b.

Definition encodeChainletID (c : option protos.ChainletID) : list byte := [].

(** ** Reading fields of a transaction *)

Definition getTxGUIDBytes (tx : protos.Transaction) : list byte :=
  bytes_of_string "TODO:Fetch guid from Tx".

Definition getTxExecutingAddress (tx : protos.Transaction) : string :=
  "address1"%string.

Definition getAuthorisedAddresses (tx : protos.Transaction)
  : list string * option protos.ChainletID :=
  (["address1"%string; "address2"%string], protos.GetChainletID tx).

(** ** Persisting and retrieving index data *)

(** What the loop over the transactions updates: the write batch and the two
    maps made before it. *)
Record extraction : Type := mkExtraction {
  st_writeBatch : gorocksdb.WriteBatch;
  st_addressToTxIndexesMap : gmap string (list Z);
  st_addressToChainletIDsMap : gmap string (list (option protos.ChainletID))
}.

(** [m[k] = append(m[k], v)]; a missing key reads as the nil slice. *)
Definition map_append {V : Type} (m : gmap string (list V)) (k : string) (v : V)
  : gmap string (list V) :=
  <[k := default [] (m !! k) ++ [v]]> m.

(** One iteration of [for txIndex, tx := range transactions]. *)
Definition index_transaction (cf : gorocksdb.ColumnFamilyHandle) (blockNumber : Z)
    (st : extraction) (txIndex : nat) (tx : protos.Transaction) : extraction :=
  let wb := gorocksdb.PutCF (st_writeBatch st) cf
              (encodeTxGUIDKey (getTxGUIDBytes tx))
              (encodeBlockNumTxIndex blockNumber (Z.of_nat txIndex)) in
  let txExecutingAddress := getTxExecutingAddress tx in
  let txIndexes :=
    map_append (st_addressToTxIndexesMap st) txExecutingAddress (Z.of_nat txIndex) in
  let chainletIDs :=
    match protos.Type_ tx with
    | protos.Transaction_CHAINLET_NEW | protos.Transaction_CHAINLET_UPDATE =>
        let '(authroizedAddresses, chainletID) := getAuthorisedAddresses tx in
        foldl (fun m authroizedAddress => map_append m authroizedAddress chainletID)
              (st_addressToChainletIDsMap st) authroizedAddresses
    | _ => st_addressToChainletIDsMap st
    end in
  mkExtraction wb txIndexes chainletIDs.

(** The loop itself; [txIndex] is the position of the head of [transactions]. *)
Fixpoint index_transactions (cf : gorocksdb.ColumnFamilyHandle) (blockNumber : Z)
    (st : extraction) (txIndex : nat) (transactions : list protos.Transaction)
  : extraction :=
  match transactions with
  | [] => st
  | tx :: rest =>
      index_transactions cf blockNumber
        (index_transaction cf blockNumber st txIndex tx) (S txIndex) rest
  end.

(** One iteration of [for address, txsIndexes := range addressToTxIndexesMap]. *)
Definition index_address (cf : gorocksdb.ColumnFamilyHandle) (blockNumber : Z)
    (wb : gorocksdb.WriteBatch) (entry : string * list Z) : gorocksdb.WriteBatch :=
  let '(address, txsIndexes) := entry in
  gorocksdb.PutCF wb cf
    (encodeAddressBlockNumCompositeKey address blockNumber)
    (encodeListTxIndexes txsIndexes).

(** A transaction of a block is never a nil pointer, so [transactions] is a
    list of records.  Go leaves the order in which [range] visits a map
    open; [map_to_list] fixes one. *)
Definition addIndexDataForPersistence (openchainDB : db.OpenchainDB)
    (block : option protos.Block) (blockNumber : Z) (blockHash : list byte)
    (writeBatch : gorocksdb.WriteBatch) : gorocksdb.WriteBatch * option error :=
  let cf := db.IndexesCF openchainDB in
  let writeBatch :=
    gorocksdb.PutCF writeBatch cf (encodeBlockHashKey blockHash)
      (encodeBlockNumber blockNumber) in
  let addressToTxIndexesMap : gmap string (list Z) := ∅ in
  let addressToChainletIDsMap : gmap string (list (option protos.ChainletID)) := ∅ in
  let transactions := protos.GetTransactions block in
  let st :=
    index_transactions cf blockNumber
      (mkExtraction writeBatch addressToTxIndexesMap addressToChainletIDsMap)
      0%nat transactions in
  let writeBatch :=
    foldl (index_address cf blockNumber) (st_writeBatch st)
      (map_to_list (st_addressToTxIndexesMap st)) in
  (writeBatch, None).

Definition fetchBlockNumberByBlockHashFromDB (openchainDB : db.OpenchainDB)
    (blockHash : list byte) : Z * option error :=
  let '(blockNumberBytes, err) :=
    db.GetFromIndexesCF openchainDB (encodeBlockHashKey blockHash) in
  match err with
  | Some _ => (0, err)
  | None =>
      let blockNumber := decodeBlockNumber blockNumberBytes in
      (blockNumber, None)
  end.

Definition fetchTransactionIndexByGUIDFromDB (openchainDB : db.OpenchainDB)
    (txGUID : list byte) : Z * Z * option error :=
  let '(blockNumTxIndexBytes, err) :=
    db.GetFromIndexesCF openchainDB (encodeTxGUIDKey txGUID) in
  match err with
  | Some _ => (0, 0, err)
  | None => decodeBlockNumTxIndex blockNumTxIndexBytes
  end.

(** ** The indexer interface and its synchronous implementation

    The methods run against the package-level handle [db.GetDBHandle()], which
    is passed in and handed back next to each result, so that what a method
    leaves untouched can be read off. *)

Class blockchainIndexer (T : Type) : Type := {
  isSynchronous : T -> bool;
  start : T -> db.OpenchainDB -> option error * db.OpenchainDB;
  createIndexesSync :
    T -> option protos.Block -> Z -> list byte -> gorocksdb.WriteBatch ->
    db.OpenchainDB -> gorocksdb.WriteBatch * option error * db.OpenchainDB;
  createIndexesAsync :
    T -> option protos.Block -> Z -> list byte ->
    db.OpenchainDB -> option error * db.OpenchainDB;
  fetchBlockNumberByBlockHash :
    T -> list byte -> db.OpenchainDB -> Z * option error * db.OpenchainDB;
  fetchTransactionIndexByGUID :
    T -> list byte -> db.OpenchainDB -> Z * Z * option error * db.OpenchainDB;
  stop : T -> db.OpenchainDB -> unit * db.OpenchainDB
}.

(** Implementation for sync indexer: a struct without fields. *)
Record blockchainIndexerSync : Type := mkBlockchainIndexerSync { }.

Definition newBlockchainIndexerSync : blockchainIndexerSync :=
  mkBlockchainIndexerSync.

#[global] Instance blockchainIndexerSync_methods
  : blockchainIndexer blockchainIndexerSync := {|
  isSynchronous indexer := true;
  start indexer openchainDB := (None, openchainDB);
  createIndexesSync indexer block blockNumber blockHash writeBatch openchainDB :=
    (addIndexDataForPersistence openchainDB block blockNumber blockHash writeBatch,
     openchainDB);
  createIndexesAsync indexer block blockNumber blockHash openchainDB :=
    (Some (errorString "Method not applicable"), openchainDB);
  fetchBlockNumberByBlockHash indexer blockHash openchainDB :=
    (fetchBlockNumberByBlockHashFromDB openchainDB blockHash, openchainDB);
  fetchTransactionIndexByGUID indexer txGUID openchainDB :=
    (fetchTransactionIndexByGUIDFromDB openchainDB txGUID, openchainDB);
  stop indexer openchainDB := (tt, openchainDB)
|}.

(** ** Notions used in the statements *)

(** [bs] is exactly one variable-width integer, of value [x]: the decoding
    loop returns [x] after reading all of [bs]. *)
Definition complete_varint (bs : list byte) (x : Z) : Prop :=
  proto.DecodeVarint_loop bs 0 0 0 = proto.VarintOk x (length bs).

(** [bs] is the beginning of a variable-width integer whose end is missing:
    every byte announces another one.  The empty buffer is the case of an
    integer missing altogether. *)
Definition truncated_varint (bs : list byte) : Prop :=
  Forall (fun b => 0x80 <= byte_to_Z b) bs.

(** The entries of the three families, as the batch is expected to hold them. *)
Definition hash_entry (blockNumber : Z) (blockHash : list byte) : gorocksdb.put :=
  gorocksdb.mkPut gorocksdb.IndexesCF
    (encodeBlockHashKey blockHash) (encodeBlockNumber blockNumber).

Definition guid_entry (blockNumber : Z) (txIndex : nat) (tx : protos.Transaction)
  : gorocksdb.put :=
  gorocksdb.mkPut gorocksdb.IndexesCF
    (encodeTxGUIDKey (getTxGUIDBytes tx))
    (encodeBlockNumTxIndex blockNumber (Z.of_nat txIndex)).

Definition address_entry (blockNumber : Z) (entry : string * list Z) : gorocksdb.put :=
  gorocksdb.mkPut gorocksdb.IndexesCF
    (encodeAddressBlockNumCompositeKey entry.1 blockNumber)
    (encodeListTxIndexes entry.2).

(** One GUID entry per transaction, in block order; [txIndex] is the position
    of the first one. *)
Fixpoint guid_entries (blockNumber : Z) (txIndex : nat)
    (transactions : list protos.Transaction) : list gorocksdb.put :=
  match transactions with
  | [] => []
  | tx :: rest =>
      guid_entry blockNumber txIndex tx :: guid_entries blockNumber (S txIndex) rest
  end.

(** The positions, in increasing order, of the transactions executed by
    [address]; [txIndex] is the position of the first transaction. *)
Fixpoint positions (address : string) (txIndex : nat)
    (transactions : list protos.Transaction) : list Z :=
  match transactions with
  | [] => []
  | tx :: rest =>
      if decide (getTxExecutingAddress tx = address)
      then Z.of_nat txIndex :: positions address (S txIndex) rest
      else positions address (S txIndex) rest
  end.

(** The map of positions once all the transactions of a block are seen. *)
Definition txIndexes_of (blockNumber : Z) (transactions : list protos.Transaction)
  : gmap string (list Z) :=
  st_addressToTxIndexesMap
    (index_transactions gorocksdb.IndexesCF blockNumber (mkExtraction [] ∅ ∅) 0
       transactions).

(** The key under which the placeholder GUID is indexed. *)
Definition stubGUIDKey : list byte :=
  encodeTxGUIDKey (bytes_of_string "TODO:Fetch guid from Tx").

(** The entries a block can contribute, family by family. *)
Inductive index_entry (blockNumber : Z) (blockHash : list byte)
    (transactions : list protos.Transaction) : gorocksdb.put -> Prop :=
| HashToNumber :
    index_entry blockNumber blockHash transactions
      (gorocksdb.mkPut gorocksdb.IndexesCF
         (encodeBlockHashKey blockHash) (encodeBlockNumber blockNumber))
| GUIDToLocation (txIndex : nat) (tx : protos.Transaction) :
    transactions !! txIndex = Some tx ->
    index_entry blockNumber blockHash transactions
      (gorocksdb.mkPut gorocksdb.IndexesCF
         (encodeTxGUIDKey (getTxGUIDBytes tx))
         (encodeBlockNumTxIndex blockNumber (Z.of_nat txIndex)))
| AddressToTxList (address : string) :
    address ∈ (getTxExecutingAddress <$> transactions) ->
    index_entry blockNumber blockHash transactions
      (gorocksdb.mkPut gorocksdb.IndexesCF
         (encodeAddressBlockNumCompositeKey address blockNumber)
         (encodeListTxIndexes (positions address 0 transactions))).

(** Two transactions that differ at most in what drives the accumulation of
    deployed-unit identifiers: the type and the identifier itself. *)
Definition same_but_deployment (tx tx' : protos.Transaction) : Prop :=
  protos.Payload tx = protos.Payload tx' /\ protos.Uuid tx = protos.Uuid tx'.

(** The entries of a block, in the order in which the batch receives them. *)
Definition block_entries (blockNumber : Z) (blockHash : list byte)
    (transactions : list protos.Transaction) : list gorocksdb.put :=
  hash_entry blockNumber blockHash
  :: guid_entries blockNumber 0 transactions
  ++ (address_entry blockNumber <$> map_to_list (txIndexes_of blockNumber transactions)).

(** The contents of the index namespace once the batch that
    [createIndexesSync] has filled for a block is committed over [indexes]. *)
Definition indexes_after_commit (indexer : blockchainIndexerSync)
    (openchainDB : db.OpenchainDB) (indexes : gmap (list byte) (list byte))
    (block : option protos.Block) (blockNumber : Z) (blockHash : list byte)
    (writeBatch : gorocksdb.WriteBatch) : gmap (list byte) (list byte) :=
  gorocksdb.commit gorocksdb.IndexesCF indexes
    (createIndexesSync indexer block blockNumber blockHash writeBatch openchainDB).1.1.

(** The deployed-unit identifiers of the deployment transactions (new or
    update) of a block, in block order. *)
Fixpoint deployment_ids (transactions : list protos.Transaction)
  : list (option protos.ChainletID) :=
  match transactions with
  | [] => []
  | tx :: rest =>
      match protos.Type_ tx with
      | protos.Transaction_CHAINLET_NEW | protos.Transaction_CHAINLET_UPDATE =>
          protos.GetChainletID tx :: deployment_ids rest
      | _ => deployment_ids rest
      end
  end.

(** The map of deployed-unit identifiers once all the transactions of a block
    are seen. *)
Definition chainletIDs_of (blockNumber : Z) (transactions : list protos.Transaction)
  : gmap string (list (option protos.ChainletID)) :=
  st_addressToChainletIDsMap
    (index_transactions gorocksdb.IndexesCF blockNumber (mkExtraction [] ∅ ∅) 0
       transactions).

(** Modelled from the spec: the reader of a list of positions, which the
    source does not have.  The spec has it read variable-width integers until
    the buffer is exhausted, the length of the list being implicit in the
    length of the buffer.  Each read takes at least one byte, so as many
    rounds as the buffer has bytes are enough. *)
Fixpoint decodeListTxIndexes_loop (rounds : nat) (b : proto.Buffer)
  : list Z * option error :=
  match rounds with
  | O => ([], None)
  | S rounds' =>
      if (length (proto.buf b) <=? proto.index b)%nat then ([], None)
      else
        let '(txIndex, err, b) := proto.Buffer_DecodeVarint b in
        match err with
        | Some _ => ([], err)
        | None =>
            let '(listTx, err) := decodeListTxIndexes_loop rounds' b in
            (txIndex :: listTx, err)
        end
  end.

(** Modelled from the spec: [decodeTxIndexList], the inverse of
    [encodeListTxIndexes]. *)
Definition decodeListTxIndexes (bytes : list byte) : list Z * option error :=
  decodeListTxIndexes_loop (length bytes) (proto.NewBuffer bytes).

(** * Properties *)

(** ** Bytes and bit arithmetic *)

Lemma byte_to_Z_range (b : byte) : 0 <= byte_to_Z b < 256.
Proof.
  unfold byte_to_Z. pose proof (Byte.to_N_bounded b). lia.
Qed.

Lemma byte_to_Z_uint8 (x : Z) : byte_to_Z (uint8 x) = x mod 256.
Proof.
  unfold byte_to_Z, uint8.
  pose proof (Z.mod_pos_bound x 256 eq_refl) as Hr.
  destruct (Byte.of_N (Z.to_N (x mod 256))) as [b|] eqn:E.
  - apply Byte.to_of_N in E. rewrite E. lia.
  - apply Byte.of_N_None_iff in E. lia.
Qed.

Lemma byte_to_Z_uint8_small (x : Z) : 0 <= x < 256 -> byte_to_Z (uint8 x) = x.
Proof. intros H. rewrite byte_to_Z_uint8. now apply Z.mod_small. Qed.

Lemma byte_to_Z_inj (b1 b2 : byte) : byte_to_Z b1 = byte_to_Z b2 -> b1 = b2.
Proof.
  unfold byte_to_Z. intros H. apply N2Z.inj in H.
  pose proof (Byte.of_to_N b1) as E1. pose proof (Byte.of_to_N b2) as E2.
  rewrite H in E1. congruence.
Qed.

(** Bits set in [a] lie below [s], bits set in [y << s] at or above it. *)
Lemma lor_shiftl_add (a y s : Z) :
  0 <= s -> 0 <= a < 2 ^ s -> Z.lor a (Z.shiftl y s) = a + y * 2 ^ s.
Proof.
  intros Hs Ha.
  assert (Hdisj : Z.land a (Z.shiftl y s) = 0).
  { apply Z.bits_inj'. intros n Hn.
    rewrite Z.land_spec, Z.bits_0.
    destruct (Z.lt_ge_cases n s) as [Hlt|Hge].
    - rewrite (Z.shiftl_spec_low y s n Hlt). apply andb_false_r.
    - rewrite <- (Z.mod_small a (2 ^ s) Ha).
      rewrite Z.mod_pow2_bits_high by lia. reflexivity. }
  rewrite <- (Z.lxor_lor _ _ Hdisj), <- (Z.add_nocarry_lxor _ _ Hdisj).
  now rewrite Z.shiftl_mul_pow2.
Qed.

Lemma land_127 (x : Z) : Z.land x 0x7F = x mod 128.
Proof. apply (Z.land_ones x 7). lia. Qed.

Lemma lor_128 (y : Z) : 0 <= y < 128 -> Z.lor 0x80 y = 128 + y.
Proof.
  intros Hy. rewrite Z.lor_comm.
  change (Z.lor y 0x80) with (Z.lor y (Z.shiftl 1 7)).
  rewrite lor_shiftl_add; change (2 ^ 7) with 128; lia.
Qed.

(** The byte written for a group of seven bits that is followed by more. *)
Lemma continuation_byte (x : Z) :
  byte_to_Z (uint8 (Z.lor 0x80 (Z.land x 0x7F))) = 128 + x mod 128.
Proof.
  pose proof (Z.mod_pos_bound x 128 eq_refl) as Hy.
  rewrite land_127, lor_128 by exact Hy.
  apply byte_to_Z_uint8_small. lia.
Qed.

(** ** Variable-width integers *)

Lemma EncodeVarint_loop_nonempty (room : nat) (x : Z) :
  (0 < room)%nat -> proto.EncodeVarint_loop room x <> [].
Proof.
  destruct room; simpl; [lia|]. intros _.
  destruct (127 <? x); discriminate.
Qed.

(** Ten cells are enough for a uint64: with more room the loop writes the
    same bytes, so it never stops for lack of room. *)
Lemma EncodeVarint_loop_enough (room : nat) :
  forall (x : Z) (extra : nat),
    (0 < room)%nat -> 0 <= x < 2 ^ (7 * Z.of_nat room) ->
    proto.EncodeVarint_loop (room + extra) x = proto.EncodeVarint_loop room x.
Proof.
  induction room as [|room IH]; intros x extra Hpos Hx; [lia|].
  cbn [Nat.add proto.EncodeVarint_loop].
  destruct (127 <? x) eqn:Hbig; [|reflexivity].
  apply Z.ltb_lt in Hbig. f_equal.
  rewrite Z.shiftr_div_pow2 by lia. change (2 ^ 7) with 128.
  assert (Hq : 1 <= x / 128) by (apply Z.div_le_lower_bound; lia).
  assert (Hroom : x / 128 < 2 ^ (7 * Z.of_nat room)).
  { apply Z.div_lt_upper_bound; [lia|].
    replace (7 * Z.of_nat (S room)) with (7 + 7 * Z.of_nat room) in Hx by lia.
    rewrite Z.pow_add_r in Hx by lia. change (2 ^ 7) with 128 in Hx. lia. }
  apply IH; [|lia].
  destruct room; [simpl in Hroom; lia | lia].
Qed.

Lemma EncodeVarint_enough (x : Z) (extra : nat) :
  is_uint64 x ->
  proto.EncodeVarint_loop (proto.maxVarintBytes + extra) x = proto.EncodeVarint x.
Proof.
  intros [H0 H64]. apply EncodeVarint_loop_enough.
  - unfold proto.maxVarintBytes. lia.
  - split; [exact H0|].
    apply Z.lt_trans with (2 ^ 64); [exact H64 | reflexivity].
Qed.

(** Decoding what the encoding loop wrote, from any shift and accumulator
    that leave room for [x] in 64 bits, and whatever follows in the buffer. *)
Lemma DecodeVarint_loop_EncodeVarint_loop (room : nat) :
  forall (x shift acc : Z) (n : nat) (rest : list byte),
    0 <= shift < 64 ->
    0 <= x < 2 ^ (64 - shift) ->
    (0 < room)%nat ->
    x < 2 ^ (7 * Z.of_nat room) ->
    0 <= acc < 2 ^ shift ->
    proto.DecodeVarint_loop (proto.EncodeVarint_loop room x ++ rest) shift acc n
    = proto.VarintOk (acc + x * 2 ^ shift)
        (n + length (proto.EncodeVarint_loop room x)).
Proof.
  induction room as [|room IH]; intros x shift acc n rest Hs Hx Hpos Hroom Hacc.
  - lia.
  - cbn [proto.EncodeVarint_loop].
    assert (H64 : 2 ^ (64 - shift) * 2 ^ shift = 2 ^ 64).
    { rewrite <- Z.pow_add_r by lia. f_equal. lia. }
    assert (Hp : 0 < 2 ^ shift) by (apply Z.pow_pos_nonneg; lia).
    destruct (127 <? x) eqn:Hbig.
    + apply Z.ltb_lt in Hbig.
      cbn [app proto.DecodeVarint_loop length].
      destruct (64 <=? shift) eqn:E; [apply Z.leb_le in E; lia|clear E].
      rewrite continuation_byte.
      pose proof (Z.mod_pos_bound x 128 eq_refl) as Hy.
      pose proof (Z.div_mod x 128 ltac:(lia)) as Hdm.
      assert (Hq : 1 <= x / 128) by (apply Z.div_le_lower_bound; lia).
      destruct (128 + x mod 128 <? 0x80) eqn:E; [apply Z.ltb_lt in E; lia|clear E].
      rewrite land_127.
      replace ((128 + x mod 128) mod 128) with (x mod 128)
        by (rewrite <- (Z.mod_small (x mod 128) 128) at 1 by lia;
            rewrite <- Z.add_mod_idemp_l by lia; reflexivity).
      rewrite Z.shiftr_div_pow2 by lia. change (2 ^ 7) with 128.
      assert (Hshift7 : shift + 7 < 64).
      { destruct (Z.lt_ge_cases (shift + 7) 64) as [|Hge]; [assumption|].
        assert (2 ^ (64 - shift) <= 2 ^ 7) by (apply Z.pow_le_mono_r; lia).
        change (2 ^ 7) with 128 in *. lia. }
      assert (Hp7 : 2 ^ (shift + 7) = 128 * 2 ^ shift).
      { rewrite Z.pow_add_r by lia. change (2 ^ 7) with 128. lia. }
      assert (Hw : wrap64 (Z.shiftl (x mod 128) shift) = x mod 128 * 2 ^ shift).
      { unfold wrap64. rewrite Z.shiftl_mul_pow2 by lia.
        apply Z.mod_small. split; [nia|].
        apply Z.le_lt_trans with (x * 2 ^ shift); nia. }
      rewrite Hw, <- (Z.shiftl_mul_pow2 (x mod 128) shift) by lia.
      rewrite lor_shiftl_add by lia.
      assert (Hroom' : x / 128 < 2 ^ (7 * Z.of_nat room)).
      { apply Z.div_lt_upper_bound; [lia|].
        replace (7 * Z.of_nat (S room)) with (7 + 7 * Z.of_nat room) in Hroom by lia.
        rewrite Z.pow_add_r in Hroom by lia. change (2 ^ 7) with 128 in Hroom. lia. }
      rewrite IH.
      * f_equal; [rewrite Hp7; nia | lia].
      * lia.
      * split; [lia|].
        apply Z.div_lt_upper_bound; [lia|].
        replace (64 - shift) with (7 + (64 - (shift + 7))) in Hx by lia.
        rewrite Z.pow_add_r in Hx by lia. change (2 ^ 7) with 128 in Hx. lia.
      * destruct room; [simpl in Hroom'; lia | lia].
      * exact Hroom'.
      * rewrite Hp7. nia.
    + apply Z.ltb_ge in Hbig.
      cbn [app proto.DecodeVarint_loop length].
      destruct (64 <=? shift) eqn:E; [apply Z.leb_le in E; lia|clear E].
      rewrite byte_to_Z_uint8_small by lia.
      destruct (x <? 0x80) eqn:E; [clear E|apply Z.ltb_ge in E; lia].
      rewrite land_127, (Z.mod_small x 128) by lia.
      assert (Hw : wrap64 (Z.shiftl x shift) = Z.shiftl x shift).
      { unfold wrap64. rewrite Z.shiftl_mul_pow2 by lia.
        apply Z.mod_small. nia. }
      rewrite Hw, lor_shiftl_add by lia.
      f_equal. lia.
Qed.

Lemma uint64_fits_room (x : Z) :
  is_uint64 x -> x < 2 ^ (7 * Z.of_nat proto.maxVarintBytes).
Proof.
  unfold is_uint64. intros [_ H].
  apply Z.lt_trans with (2 ^ 64); [assumption|reflexivity].
Qed.

(** The buffer method appends the bytes of the function. *)
Lemma Buffer_EncodeVarint_loop_app (fuel : nat) :
  forall (bs : list byte) (x : Z),
    proto.Buffer_EncodeVarint_loop fuel bs x = bs ++ proto.EncodeVarint_loop fuel x.
Proof.
  induction fuel as [|fuel IH]; intros bs x; simpl.
  - now rewrite app_nil_r.
  - replace (128 <=? x) with (127 <? x)
      by (destruct (127 <? x) eqn:E1, (128 <=? x) eqn:E2; try reflexivity;
          [apply Z.ltb_lt in E1; apply Z.leb_gt in E2
          |apply Z.ltb_ge in E1; apply Z.leb_le in E2]; lia).
    destruct (127 <? x); [|reflexivity].
    rewrite IH, <- app_assoc, (Z.lor_comm (Z.land x 127)). reflexivity.
Qed.

Lemma Buffer_EncodeVarint_buf (p : proto.Buffer) (x : Z) :
  proto.buf (proto.Buffer_EncodeVarint p x) = proto.buf p ++ proto.EncodeVarint x.
Proof. apply Buffer_EncodeVarint_loop_app. Qed.

Lemma Buffer_EncodeVarint_index (p : proto.Buffer) (x : Z) :
  proto.index (proto.Buffer_EncodeVarint p x) = proto.index p.
Proof. reflexivity. Qed.

(** Reading back, at the read index, an integer written there. *)
Lemma Buffer_DecodeVarint_EncodeVarint (pre rest : list byte) (x : Z) :
  is_uint64 x ->
  proto.Buffer_DecodeVarint
    (proto.mkBuffer (pre ++ proto.EncodeVarint x ++ rest) (length pre))
  = (x, None,
     proto.mkBuffer (pre ++ proto.EncodeVarint x ++ rest)
       (length pre + length (proto.EncodeVarint x))).
Proof.
  intros Hx. unfold proto.Buffer_DecodeVarint. cbn [proto.buf proto.index].
  rewrite drop_app_length.
  unfold proto.EncodeVarint.
  rewrite DecodeVarint_loop_EncodeVarint_loop.
  - rewrite Z.add_0_l, Z.pow_0_r, Z.mul_1_r. reflexivity.
  - lia.
  - exact Hx.
  - unfold proto.maxVarintBytes. lia.
  - now apply uint64_fits_room.
  - simpl. lia.
Qed.

(** ** Round trips of the value codec *)

Lemma DecodeVarint_EncodeVarint (x : Z) :
  is_uint64 x ->
  proto.DecodeVarint (proto.EncodeVarint x) = (x, length (proto.EncodeVarint x)).
Proof.
  intros Hx. unfold proto.DecodeVarint, proto.EncodeVarint.
  rewrite <- (app_nil_r (proto.EncodeVarint_loop _ x)) at 1.
  rewrite DecodeVarint_loop_EncodeVarint_loop.
  - rewrite Z.add_0_l, Z.pow_0_r, Z.mul_1_r. reflexivity.
  - lia.
  - exact Hx.
  - unfold proto.maxVarintBytes. lia.
  - now apply uint64_fits_room.
  - simpl. lia.
Qed.

Lemma encodeBlockNumTxIndex_bytes (blockNumber txIndexInBlock : Z) :
  encodeBlockNumTxIndex blockNumber txIndexInBlock
  = proto.EncodeVarint blockNumber ++ proto.EncodeVarint txIndexInBlock.
Proof.
  unfold encodeBlockNumTxIndex, proto.Bytes.
  now rewrite !Buffer_EncodeVarint_buf.
Qed.

(** C1. Round trip of the two value encodings: for all uint64 values [n],
    [b] and [i], [decodeBlockNumber (encodeBlockNumber n)] is [n], and
    [decodeBlockNumTxIndex (encodeBlockNumTxIndex b i)] is [(b, i)] with a nil
    error. *)
Theorem encode_decode_roundtrip (n b i : Z) :
  is_uint64 n -> is_uint64 b -> is_uint64 i ->
  decodeBlockNumber (encodeBlockNumber n) = n /\
  decodeBlockNumTxIndex (encodeBlockNumTxIndex b i) = (b, i, None).
Proof.
  intros Hn Hb Hi. split.
  - unfold decodeBlockNumber, encodeBlockNumber.
    now rewrite DecodeVarint_EncodeVarint.
  - rewrite encodeBlockNumTxIndex_bytes.
    unfold decodeBlockNumTxIndex, proto.NewBuffer.
    pose proof (Buffer_DecodeVarint_EncodeVarint [] (proto.EncodeVarint i) b Hb) as H1.
    cbn [app length Nat.add] in H1. rewrite H1.
    pose proof (Buffer_DecodeVarint_EncodeVarint (proto.EncodeVarint b) [] i Hi) as H2.
    rewrite app_nil_r in H2. rewrite H2. reflexivity.
Qed.

Lemma encode_decode_roundtrip_witness :
  is_uint64 300 /\ is_uint64 7 /\ is_uint64 (2 ^ 64 - 1) /\
  decodeBlockNumber (encodeBlockNumber 300) = 300 /\
  decodeBlockNumTxIndex (encodeBlockNumTxIndex 7 (2 ^ 64 - 1)) = (7, 2 ^ 64 - 1, None).
Proof.
  assert (H1 : is_uint64 300) by (split; [lia | reflexivity]).
  assert (H2 : is_uint64 7) by (split; [lia | reflexivity]).
  assert (H3 : is_uint64 (2 ^ 64 - 1)) by (split; [discriminate | reflexivity]).
  exact (conj H1 (conj H2 (conj H3
           (encode_decode_roundtrip 300 7 (2 ^ 64 - 1) H1 H2 H3)))).
Defined.

(** ** Decoding malformed values *)

Lemma DecodeVarint_loop_app (first rest : list byte) :
  forall (shift acc : Z) (n : nat) (x : Z) (m : nat),
    proto.DecodeVarint_loop first shift acc n = proto.VarintOk x m ->
    proto.DecodeVarint_loop (first ++ rest) shift acc n = proto.VarintOk x m.
Proof.
  induction first as [|b first IH]; intros shift acc n x m; simpl.
  - destruct (64 <=? shift); discriminate.
  - destruct (64 <=? shift); [discriminate|].
    destruct (byte_to_Z b <? 0x80); [trivial|]. apply IH.
Qed.

Lemma DecodeVarint_loop_truncated (bs : list byte) :
  truncated_varint bs ->
  forall (shift acc : Z) (n : nat),
  exists x,
    proto.DecodeVarint_loop bs shift acc n
    = if shift + 7 * Z.of_nat (length bs) <? 64
      then proto.VarintEOF x else proto.VarintOverflow x.
Proof.
  induction 1 as [|b bs Hb _ IH]; intros shift acc n.
  - exists acc. cbn [proto.DecodeVarint_loop length].
    replace (shift + 7 * Z.of_nat 0) with shift by lia.
    destruct (64 <=? shift) eqn:E1, (shift <? 64) eqn:E2; try reflexivity;
      [apply Z.leb_le in E1; apply Z.ltb_lt in E2
      |apply Z.leb_gt in E1; apply Z.ltb_ge in E2]; lia.
  - cbn [proto.DecodeVarint_loop].
    destruct (64 <=? shift) eqn:E1.
    + exists acc. apply Z.leb_le in E1.
      destruct (shift + 7 * Z.of_nat (length (b :: bs)) <? 64) eqn:E2;
        [apply Z.ltb_lt in E2; lia | reflexivity].
    + destruct (byte_to_Z b <? 0x80) eqn:E2; [apply Z.ltb_lt in E2; lia|].
      replace (shift + 7 * Z.of_nat (length (b :: bs)))
        with (shift + 7 + 7 * Z.of_nat (length bs)) by (cbn [length]; lia).
      apply IH.
Qed.

(** C7. A location value holding one complete variable-width integer
    followed by a truncated or missing second one is rejected:
    [decodeBlockNumTxIndex] returns a non-nil decode error
    ([io.ErrUnexpectedEOF] while fewer than ten bytes follow, the overflow
    error from ten on), never a second component as a success. *)
Theorem decodeBlockNumTxIndex_truncated_second
    (first rest : list byte) (blockNum : Z) :
  complete_varint first blockNum ->
  truncated_varint rest ->
  exists txIndex,
    decodeBlockNumTxIndex (first ++ rest)
    = (blockNum, txIndex,
       Some (if 7 * Z.of_nat (length rest) <? 64
             then io_ErrUnexpectedEOF else proto_errOverflow)).
Proof.
  intros Hfirst Hrest.
  unfold decodeBlockNumTxIndex, proto.NewBuffer, proto.Buffer_DecodeVarint.
  cbn [proto.buf proto.index]. rewrite drop_0.
  rewrite (DecodeVarint_loop_app first rest 0 0 0%nat _ _ Hfirst).
  cbn [proto.buf proto.index]. rewrite drop_app_length.
  destruct (DecodeVarint_loop_truncated rest Hrest 0 0 (length first)) as [x Hx].
  rewrite Hx, Z.add_0_l.
  exists x. destruct (7 * Z.of_nat (length rest) <? 64); reflexivity.
Qed.

Lemma decodeBlockNumTxIndex_truncated_second_witness :
  complete_varint [uint8 7] 7 /\ truncated_varint [uint8 0x81] /\
  exists txIndex,
    decodeBlockNumTxIndex ([uint8 7] ++ [uint8 0x81])
    = (7, txIndex, Some io_ErrUnexpectedEOF).
Proof.
  assert (H1 : complete_varint [uint8 7] 7) by reflexivity.
  assert (H2 : truncated_varint [uint8 0x81])
    by (repeat constructor; vm_compute; discriminate).
  exact (conj H1 (conj H2
           (decodeBlockNumTxIndex_truncated_second [uint8 7] [uint8 0x81] 7 H1 H2))).
Defined.

(** A truncated block-number value decodes to zero: the count of bytes by
    which [proto.DecodeVarint] reports the failure is dropped. *)
Lemma decodeBlockNumber_truncated (bs : list byte) :
  truncated_varint bs -> decodeBlockNumber bs = 0.
Proof.
  intros Hbs. unfold decodeBlockNumber, proto.DecodeVarint.
  destruct (DecodeVarint_loop_truncated bs Hbs 0 0 0%nat) as [x Hx].
  rewrite Hx. destruct (_ <? 64); reflexivity.
Qed.

(** The lookup by hash succeeds with whatever the stored bytes decode to. *)
Lemma fetchBlockNumberByBlockHashFromDB_stored
    (openchainDB : db.OpenchainDB) (blockHash value : list byte) :
  db.GetFromIndexesCF openchainDB (encodeBlockHashKey blockHash) = (value, None) ->
  fetchBlockNumberByBlockHashFromDB openchainDB blockHash
  = (decodeBlockNumber value, None).
Proof.
  intros H. unfold fetchBlockNumberByBlockHashFromDB. now rewrite H.
Qed.

(** Its only failures are those of the read, passed on unchanged. *)
Lemma fetchBlockNumberByBlockHashFromDB_error
    (openchainDB : db.OpenchainDB) (blockHash value : list byte) (e : error) :
  db.GetFromIndexesCF openchainDB (encodeBlockHashKey blockHash) = (value, Some e) ->
  fetchBlockNumberByBlockHashFromDB openchainDB blockHash = (0, Some e).
Proof.
  intros H. unfold fetchBlockNumberByBlockHashFromDB. now rewrite H.
Qed.

(** C2. The code at a truncated stored value (a variable-width integer
    whose last byte is missing): [decodeBlockNumber] returns 0 for it, and the
    lookup of a hash stored with that value returns block number 0 with a nil
    error. *)
Theorem decodeBlockNumber_truncated_value_reads_zero
    (blockNumberBytes : list byte) (openchainDB : db.OpenchainDB)
    (blockHash : list byte) :
  truncated_varint blockNumberBytes ->
  db.GetFromIndexesCF openchainDB (encodeBlockHashKey blockHash)
    = (blockNumberBytes, None) ->
  decodeBlockNumber blockNumberBytes = 0 /\
  fetchBlockNumberByBlockHashFromDB openchainDB blockHash = (0, None).
Proof.
  intros Htrunc Hread.
  pose proof (decodeBlockNumber_truncated blockNumberBytes Htrunc) as Hzero.
  split; [exact Hzero|].
  rewrite (fetchBlockNumberByBlockHashFromDB_stored _ _ _ Hread).
  now rewrite Hzero.
Qed.

Lemma decodeBlockNumber_truncated_value_reads_zero_witness :
  truncated_varint [uint8 0x80] /\
  decodeBlockNumber [uint8 0x80] = 0 /\
  fetchBlockNumberByBlockHashFromDB
    (db.handle_over {[ encodeBlockHashKey [uint8 0xAB] := [uint8 0x80] ]})
    [uint8 0xAB]
  = (0, None).
Proof.
  assert (H1 : truncated_varint [uint8 0x80])
    by (repeat constructor; vm_compute; discriminate).
  assert (H2 : db.GetFromIndexesCF
                 (db.handle_over {[ encodeBlockHashKey [uint8 0xAB] := [uint8 0x80] ]})
                 (encodeBlockHashKey [uint8 0xAB])
               = ([uint8 0x80], None))
    by (cbn [db.GetFromIndexesCF db.handle_over]; now rewrite lookup_singleton_eq).
  exact (conj H1
           (decodeBlockNumber_truncated_value_reads_zero [uint8 0x80]
              (db.handle_over {[ encodeBlockHashKey [uint8 0xAB] := [uint8 0x80] ]})
              [uint8 0xAB] H1 H2)).
Defined.

(** The lookup of a hash that is absent from the index. *)
Lemma fetchBlockNumberByBlockHashFromDB_absent
    (indexes : gmap (list byte) (list byte)) (blockHash : list byte) :
  indexes !! encodeBlockHashKey blockHash = None ->
  fetchBlockNumberByBlockHashFromDB (db.handle_over indexes) blockHash = (0, None).
Proof.
  intros H. unfold fetchBlockNumberByBlockHashFromDB.
  cbn [db.GetFromIndexesCF db.handle_over]. now rewrite H.
Qed.

(** C3. The code at a hash that was never indexed: when the index holds no
    entry under the key of the hash, [fetchBlockNumberByBlockHash] returns
    block number 0 with a nil error. *)
Theorem fetchBlockNumberByBlockHash_never_indexed_reads_zero
    (indexer : blockchainIndexerSync) (indexes : gmap (list byte) (list byte))
    (blockHash : list byte) :
  indexes !! encodeBlockHashKey blockHash = None ->
  fetchBlockNumberByBlockHash indexer blockHash (db.handle_over indexes)
  = (0, None, db.handle_over indexes).
Proof.
  intros Habsent.
  cbn [fetchBlockNumberByBlockHash blockchainIndexerSync_methods].
  now rewrite fetchBlockNumberByBlockHashFromDB_absent.
Qed.

Lemma fetchBlockNumberByBlockHash_never_indexed_reads_zero_witness :
  let indexes : gmap (list byte) (list byte) :=
    {[ encodeBlockHashKey [uint8 1] := encodeBlockNumber 7 ]} in
  indexes !! encodeBlockHashKey [uint8 2] = None /\
  fetchBlockNumberByBlockHash newBlockchainIndexerSync [uint8 2]
    (db.handle_over indexes)
  = (0, None, db.handle_over indexes).
Proof.
  intros indexes.
  assert (H : indexes !! encodeBlockHashKey [uint8 2] = None)
    by (apply lookup_singleton_ne; discriminate).
  exact (conj H
           (fetchBlockNumberByBlockHash_never_indexed_reads_zero
              newBlockchainIndexerSync indexes [uint8 2] H)).
Defined.

(** A failure of the engine, by contrast, is passed on. *)
Lemma fetchBlockNumberByBlockHash_store_failure
    (indexer : blockchainIndexerSync) (e : error) (blockHash : list byte) :
  fetchBlockNumberByBlockHash indexer blockHash (db.failing_handle e)
  = (0, Some e, db.failing_handle e).
Proof. reflexivity. Qed.

(** The lookup by GUID, next to it, does fail on a GUID that was never
    indexed: the empty value does not decode. *)
Lemma fetchTransactionIndexByGUID_never_indexed
    (indexer : blockchainIndexerSync) (txGUID : list byte) :
  fetchTransactionIndexByGUID indexer txGUID (db.handle_over ∅)
  = (0, 0, Some io_ErrUnexpectedEOF, db.handle_over ∅).
Proof.
  cbn [fetchTransactionIndexByGUID blockchainIndexerSync_methods].
  unfold fetchTransactionIndexByGUIDFromDB.
  cbn [db.GetFromIndexesCF db.handle_over]. now rewrite lookup_empty.
Qed.

(** ** Key families *)

Lemma encodeAddressBlockNumCompositeKey_bytes (address : string) (blockNumber : Z) :
  encodeAddressBlockNumCompositeKey address blockNumber
  = prefixAddressBlockNumCompositeKey
      :: proto.EncodeVarint (Z.of_nat (length (bytes_of_string address)))
      ++ bytes_of_string address ++ proto.EncodeVarint blockNumber.
Proof.
  unfold encodeAddressBlockNumCompositeKey, proto.Bytes, proto.Buffer_EncodeRawBytes.
  rewrite Buffer_EncodeVarint_buf. cbn [proto.buf].
  rewrite Buffer_EncodeVarint_buf. cbn [proto.buf proto.NewBuffer].
  now rewrite <- !app_assoc.
Qed.

Lemma head_encodeBlockHashKey (blockHash : list byte) :
  head (encodeBlockHashKey blockHash) = Some prefixBlockHashKey.
Proof. reflexivity. Qed.

Lemma head_encodeTxGUIDKey (guidBytes : list byte) :
  head (encodeTxGUIDKey guidBytes) = Some prefixTxGUIDKey.
Proof. reflexivity. Qed.

Lemma head_encodeAddressBlockNumCompositeKey (address : string) (blockNumber : Z) :
  head (encodeAddressBlockNumCompositeKey address blockNumber)
  = Some prefixAddressBlockNumCompositeKey.
Proof. now rewrite encodeAddressBlockNumCompositeKey_bytes. Qed.

Lemma prefixes_distinct :
  prefixBlockHashKey <> prefixTxGUIDKey /\
  prefixBlockHashKey <> prefixAddressBlockNumCompositeKey /\
  prefixTxGUIDKey <> prefixAddressBlockNumCompositeKey.
Proof. repeat split; discriminate. Qed.

Lemma encodeTxGUIDKey_ne_address (guidBytes : list byte) (address : string)
    (blockNumber : Z) :
  encodeTxGUIDKey guidBytes <> encodeAddressBlockNumCompositeKey address blockNumber.
Proof.
  intros H. apply (f_equal head) in H.
  rewrite head_encodeTxGUIDKey, head_encodeAddressBlockNumCompositeKey in H.
  discriminate.
Qed.

Lemma encodeBlockHashKey_ne_guid (blockHash guidBytes : list byte) :
  encodeBlockHashKey blockHash <> encodeTxGUIDKey guidBytes.
Proof. discriminate. Qed.

Lemma encodeBlockHashKey_ne_address (blockHash : list byte) (address : string)
    (blockNumber : Z) :
  encodeBlockHashKey blockHash <> encodeAddressBlockNumCompositeKey address blockNumber.
Proof.
  intros H. apply (f_equal head) in H.
  rewrite head_encodeBlockHashKey, head_encodeAddressBlockNumCompositeKey in H.
  discriminate.
Qed.

(** C4. Key-family disjointness: whatever the hash bytes, the GUID bytes, the
    address and the block number, the keys built by [encodeBlockHashKey],
    [encodeTxGUIDKey] and [encodeAddressBlockNumCompositeKey] start with the
    bytes 1, 2 and 3 respectively, and so are pairwise unequal. *)
Theorem key_families_disjoint
    (blockHash guidBytes : list byte) (address : string) (blockNumber : Z) :
  (head (encodeBlockHashKey blockHash) = Some (uint8 1) /\
   head (encodeTxGUIDKey guidBytes) = Some (uint8 2) /\
   head (encodeAddressBlockNumCompositeKey address blockNumber) = Some (uint8 3)) /\
  encodeBlockHashKey blockHash <> encodeTxGUIDKey guidBytes /\
  encodeBlockHashKey blockHash
    <> encodeAddressBlockNumCompositeKey address blockNumber /\
  encodeTxGUIDKey guidBytes
    <> encodeAddressBlockNumCompositeKey address blockNumber.
Proof.
  repeat split.
  - apply head_encodeAddressBlockNumCompositeKey.
  - apply encodeBlockHashKey_ne_guid.
  - apply encodeBlockHashKey_ne_address.
  - apply encodeTxGUIDKey_ne_address.
Qed.

(** ** The synchronous indexer *)

(** C8. On the synchronous indexer, for every block, number and hash,
    [createIndexesAsync] returns the error "Method not applicable" and leaves
    the store as it was; [isSynchronous] is true; [start] returns a nil error
    and [stop] returns, both leaving the store as it was. *)
Theorem blockchainIndexerSync_not_applicable
    (indexer : blockchainIndexerSync) (block : option protos.Block)
    (blockNumber : Z) (blockHash : list byte) (openchainDB : db.OpenchainDB) :
  createIndexesAsync indexer block blockNumber blockHash openchainDB
    = (Some (errorString "Method not applicable"), openchainDB) /\
  isSynchronous indexer = true /\
  start indexer openchainDB = (None, openchainDB) /\
  stop indexer openchainDB = (tt, openchainDB).
Proof. repeat split. Qed.

(** ** Extraction of the index entries of a block *)

Section Extraction.

Variable blockNumber : Z.

Local Abbreviation cf := gorocksdb.IndexesCF.

Lemma index_transactions_writeBatch (transactions : list protos.Transaction) :
  forall (st : extraction) (txIndex : nat),
    st_writeBatch (index_transactions cf blockNumber st txIndex transactions)
    = st_writeBatch st ++ guid_entries blockNumber txIndex transactions.
Proof.
  induction transactions as [|tx rest IH]; intros st txIndex; simpl.
  - now rewrite app_nil_r.
  - rewrite IH. cbn [index_transaction st_writeBatch].
    unfold gorocksdb.PutCF. now rewrite <- app_assoc.
Qed.

Lemma lookup_map_append {V : Type} (m : gmap string (list V)) (k a : string) (v : V) :
  map_append m k v !! a
  = if decide (k = a) then Some (default [] (m !! a) ++ [v]) else m !! a.
Proof.
  unfold map_append. rewrite lookup_insert.
  destruct (decide (k = a)) as [->|]; reflexivity.
Qed.

(** What the loop leaves under [address] in the map of positions. *)
Lemma index_transactions_txIndexes (address : string)
    (transactions : list protos.Transaction) :
  forall (st : extraction) (txIndex : nat),
    st_addressToTxIndexesMap
      (index_transactions cf blockNumber st txIndex transactions) !! address
    = match positions address txIndex transactions with
      | [] => st_addressToTxIndexesMap st !! address
      | l => Some (default [] (st_addressToTxIndexesMap st !! address) ++ l)
      end.
Proof.
  induction transactions as [|tx rest IH]; intros st txIndex;
    cbn [index_transactions positions]; [reflexivity|].
  rewrite IH. cbn [index_transaction st_addressToTxIndexesMap].
  rewrite lookup_map_append.
  destruct (decide (getTxExecutingAddress tx = address)) as [Heq|Hne].
  - destruct (positions address (S txIndex) rest) as [|i l];
      cbn [default from_option id].
    + reflexivity.
    + now rewrite <- app_assoc.
  - reflexivity.
Qed.

Lemma foldl_index_address (entries : list (string * list Z)) :
  forall wb : gorocksdb.WriteBatch,
    foldl (index_address cf blockNumber) wb entries
    = wb ++ (address_entry blockNumber <$> entries).
Proof.
  induction entries as [|[address txsIndexes] entries IH]; intros wb; simpl.
  - now rewrite app_nil_r.
  - rewrite IH. unfold gorocksdb.PutCF. now rewrite <- app_assoc.
Qed.

Lemma positions_nonempty (address : string) (transactions : list protos.Transaction) :
  forall txIndex : nat,
    positions address txIndex transactions <> []
    <-> address ∈ (getTxExecutingAddress <$> transactions).
Proof.
  induction transactions as [|tx rest IH]; intros txIndex; cbn [positions fmap list_fmap].
  - split; [congruence | intros H; inversion H].
  - rewrite elem_of_cons.
    destruct (decide (getTxExecutingAddress tx = address)) as [Heq|Hne].
    + split; [intros _; left; congruence | discriminate].
    + rewrite IH. split; [auto | intros [H|H]; [congruence|exact H]].
Qed.

Lemma index_transactions_txIndexes_frame (transactions : list protos.Transaction) :
  forall (st st' : extraction) (txIndex : nat),
    st_addressToTxIndexesMap st = st_addressToTxIndexesMap st' ->
    st_addressToTxIndexesMap
      (index_transactions cf blockNumber st txIndex transactions)
    = st_addressToTxIndexesMap
        (index_transactions cf blockNumber st' txIndex transactions).
Proof.
  induction transactions as [|tx rest IH]; intros st st' txIndex H; simpl.
  - exact H.
  - apply IH. cbn [index_transaction st_addressToTxIndexesMap]. now rewrite H.
Qed.

Lemma lookup_txIndexes_of (transactions : list protos.Transaction) (address : string) :
  txIndexes_of blockNumber transactions !! address
  = match positions address 0 transactions with
    | [] => None
    | l => Some l
    end.
Proof.
  unfold txIndexes_of. rewrite index_transactions_txIndexes.
  cbn [st_addressToTxIndexesMap]. rewrite lookup_empty. reflexivity.
Qed.

(** The batch after extraction: the caller's puts, the hash entry, the GUID
    entries in block order, then one entry per key of the map of positions. *)
Lemma addIndexDataForPersistence_entries (openchainDB : db.OpenchainDB)
    (block : option protos.Block) (blockHash : list byte)
    (writeBatch : gorocksdb.WriteBatch) :
  addIndexDataForPersistence openchainDB block blockNumber blockHash writeBatch
  = (writeBatch
       ++ hash_entry blockNumber blockHash
       :: guid_entries blockNumber 0 (protos.GetTransactions block)
       ++ (address_entry blockNumber
             <$> map_to_list (txIndexes_of blockNumber (protos.GetTransactions block))),
     None).
Proof.
  unfold addIndexDataForPersistence. cbn zeta.
  change (db.IndexesCF openchainDB) with cf.
  rewrite foldl_index_address, index_transactions_writeBatch.
  cbn [st_writeBatch]. unfold gorocksdb.PutCF, hash_entry.
  rewrite <- !app_assoc. cbn [app].
  unfold txIndexes_of.
  rewrite (index_transactions_txIndexes_frame _ _ (mkExtraction [] ∅ ∅)) by reflexivity.
  reflexivity.
Qed.

End Extraction.

(** [positions] lists exactly the positions of the transactions executed by
    the address, in increasing order. *)
Lemma elem_of_positions (address : string) (transactions : list protos.Transaction) :
  forall (txIndex : nat) (i : Z),
    i ∈ positions address txIndex transactions
    <-> exists (j : nat) (tx : protos.Transaction),
          transactions !! j = Some tx /\ getTxExecutingAddress tx = address /\
          i = Z.of_nat (txIndex + j).
Proof.
  induction transactions as [|tx rest IH]; intros txIndex i; cbn [positions].
  - split; [intros H; inversion H | intros (j & tx & H & _); discriminate].
  - assert (Hrest : i ∈ positions address (S txIndex) rest
              <-> exists (j : nat) (tx' : protos.Transaction),
                    (tx :: rest) !! S j = Some tx' /\
                    getTxExecutingAddress tx' = address /\
                    i = Z.of_nat (txIndex + S j)).
    { rewrite IH. split; intros (j & tx' & H1 & H2 & H3); exists j, tx';
        (split; [exact H1 | split; [exact H2 | lia]]). }
    destruct (decide (getTxExecutingAddress tx = address)) as [Heq|Hne].
    + rewrite elem_of_cons, Hrest. split.
      * intros [->|(j & tx' & H)]; [exists 0%nat, tx | exists (S j), tx'; exact H].
        split; [reflexivity | split; [exact Heq | lia]].
      * intros ([|j] & tx' & H1 & H2 & H3); [left; lia | right; eauto].
    + rewrite Hrest. split.
      * intros (j & tx' & H); exists (S j), tx'; exact H.
      * intros ([|j] & tx' & H1 & H2 & H3); [|eauto].
        simpl in H1. congruence.
Qed.

Lemma positions_lower_bound (address : string) (transactions : list protos.Transaction)
    (txIndex : nat) :
  Forall (fun i => Z.of_nat txIndex <= i) (positions address txIndex transactions).
Proof.
  apply Forall_forall. intros i Hi.
  apply elem_of_positions in Hi as (j & tx & _ & _ & ->). lia.
Qed.

Lemma positions_sorted (address : string) (transactions : list protos.Transaction) :
  forall txIndex : nat,
    StronglySorted Z.lt (positions address txIndex transactions).
Proof.
  induction transactions as [|tx rest IH]; intros txIndex; cbn [positions].
  - constructor.
  - destruct (decide (getTxExecutingAddress tx = address)); [|apply IH].
    constructor; [apply IH|].
    eapply Forall_impl; [apply positions_lower_bound|].
    intros i Hi. cbn beta in Hi. lia.
Qed.

(** C6. A block without transactions adds exactly one entry to the batch, the
    hash entry of the block: no GUID entry and no address entry follows it,
    and the error is nil. *)
Theorem addIndexDataForPersistence_empty_block
    (openchainDB : db.OpenchainDB) (block : option protos.Block)
    (blockNumber : Z) (blockHash : list byte) (writeBatch : gorocksdb.WriteBatch) :
  protos.GetTransactions block = [] ->
  addIndexDataForPersistence openchainDB block blockNumber blockHash writeBatch
  = (writeBatch
       ++ [gorocksdb.mkPut gorocksdb.IndexesCF
             (encodeBlockHashKey blockHash) (encodeBlockNumber blockNumber)],
     None).
Proof.
  intros Hempty. rewrite addIndexDataForPersistence_entries, Hempty.
  reflexivity.
Qed.

Lemma addIndexDataForPersistence_empty_block_witness :
  protos.GetTransactions (Some (protos.mkBlock [] [uint8 1] [uint8 2])) = [] /\
  addIndexDataForPersistence (db.handle_over ∅)
    (Some (protos.mkBlock [] [uint8 1] [uint8 2])) 7 [uint8 9] []
  = ([] ++ [gorocksdb.mkPut gorocksdb.IndexesCF
              (encodeBlockHashKey [uint8 9]) (encodeBlockNumber 7)],
     None).
Proof.
  split; [reflexivity|].
  apply (addIndexDataForPersistence_empty_block (db.handle_over ∅)
           (Some (protos.mkBlock [] [uint8 1] [uint8 2])) 7 [uint8 9] []).
  reflexivity.
Defined.

(** ** The placeholder accessors *)

Lemma guid_entries_stub (blockNumber : Z) (transactions : list protos.Transaction) :
  forall txIndex : nat,
    guid_entries blockNumber txIndex transactions
    = (fun i => gorocksdb.mkPut gorocksdb.IndexesCF stubGUIDKey
                  (encodeBlockNumTxIndex blockNumber (Z.of_nat i)))
        <$> seq txIndex (length transactions).
Proof.
  induction transactions as [|tx rest IH]; intros txIndex; simpl; [reflexivity|].
  now rewrite IH.
Qed.

Lemma positions_stub (transactions : list protos.Transaction) :
  forall txIndex : nat,
    positions "address1" txIndex transactions
    = Z.of_nat <$> seq txIndex (length transactions).
Proof.
  induction transactions as [|tx rest IH]; intros txIndex; simpl; [reflexivity|].
  now rewrite IH.
Qed.

Lemma positions_other (address : string) (transactions : list protos.Transaction) :
  address <> "address1"%string ->
  forall txIndex : nat, positions address txIndex transactions = [].
Proof.
  intros Hne. induction transactions as [|tx rest IH]; intros txIndex;
    cbn [positions]; [reflexivity|].
  destruct (decide (getTxExecutingAddress tx = address)) as [Heq|_]; [|apply IH].
  unfold getTxExecutingAddress in Heq. congruence.
Qed.

Lemma txIndexes_of_stub (blockNumber : Z) (transactions : list protos.Transaction) :
  transactions <> [] ->
  txIndexes_of blockNumber transactions
  = {[ "address1"%string := Z.of_nat <$> seq 0 (length transactions) ]}.
Proof.
  intros Hne. apply map_eq. intros address.
  rewrite lookup_txIndexes_of, lookup_singleton.
  destruct (decide ("address1"%string = address)) as [<-|Hother].
  - rewrite positions_stub.
    destruct transactions; [congruence | reflexivity].
  - rewrite positions_other by congruence. reflexivity.
Qed.

(** With the accessors as they are, the entries of a block depend on its
    transactions through their number only. *)
Lemma addIndexDataForPersistence_stub (openchainDB : db.OpenchainDB)
    (block : option protos.Block) (blockNumber : Z) (blockHash : list byte)
    (writeBatch : gorocksdb.WriteBatch) :
  protos.GetTransactions block <> [] ->
  addIndexDataForPersistence openchainDB block blockNumber blockHash writeBatch
  = (writeBatch
       ++ hash_entry blockNumber blockHash
       :: ((fun i => gorocksdb.mkPut gorocksdb.IndexesCF stubGUIDKey
                       (encodeBlockNumTxIndex blockNumber (Z.of_nat i)))
             <$> seq 0 (length (protos.GetTransactions block)))
       ++ [gorocksdb.mkPut gorocksdb.IndexesCF
             (encodeAddressBlockNumCompositeKey "address1" blockNumber)
             (encodeListTxIndexes
                (Z.of_nat <$> seq 0 (length (protos.GetTransactions block))))],
     None).
Proof.
  intros Hne. rewrite addIndexDataForPersistence_entries.
  rewrite guid_entries_stub, txIndexes_of_stub by exact Hne.
  rewrite map_to_list_singleton. reflexivity.
Qed.

(** ** What the batch receives *)

Lemma guid_entries_in (blockNumber : Z) (blockHash : list byte)
    (transactions : list protos.Transaction) :
  forall (done : list protos.Transaction),
    Forall (index_entry blockNumber blockHash (done ++ transactions))
      (guid_entries blockNumber (length done) transactions).
Proof.
  induction transactions as [|tx rest IH]; intros done; cbn [guid_entries].
  - constructor.
  - constructor.
    + apply GUIDToLocation.
      rewrite lookup_app_r, Nat.sub_diag by lia. reflexivity.
    + specialize (IH (done ++ [tx])).
      rewrite <- app_assoc, length_app in IH. cbn [app length] in IH.
      now rewrite Nat.add_1_r in IH.
Qed.

Lemma guid_entries_length_only (blockNumber : Z)
    (transactions transactions' : list protos.Transaction) :
  length transactions = length transactions' ->
  forall txIndex : nat,
    guid_entries blockNumber txIndex transactions
    = guid_entries blockNumber txIndex transactions'.
Proof.
  intros Hlen txIndex. now rewrite !guid_entries_stub, Hlen.
Qed.

Lemma txIndexes_of_length_only (blockNumber : Z)
    (transactions transactions' : list protos.Transaction) :
  length transactions = length transactions' ->
  txIndexes_of blockNumber transactions = txIndexes_of blockNumber transactions'.
Proof.
  intros Hlen. destruct transactions as [|tx rest], transactions' as [|tx' rest'];
    try discriminate; [reflexivity|].
  now rewrite !txIndexes_of_stub, Hlen by discriminate.
Qed.

(** C9. What a block adds to the batch is a list of entries of the three
    families (hash to number, GUID to location, address to positions) and
    nothing else, with a nil error; the map of deployed-unit identifiers
    leaves no trace: a block whose transactions differ only in their type and
    deployed-unit identifier adds the very same entries. *)
Theorem addIndexDataForPersistence_writes_index_entries_only
    (openchainDB : db.OpenchainDB) (block block' : option protos.Block)
    (blockNumber : Z) (blockHash : list byte) (writeBatch : gorocksdb.WriteBatch) :
  Forall2 same_but_deployment
    (protos.GetTransactions block) (protos.GetTransactions block') ->
  exists puts : list gorocksdb.put,
    addIndexDataForPersistence openchainDB block blockNumber blockHash writeBatch
      = (writeBatch ++ puts, None) /\
    Forall (index_entry blockNumber blockHash (protos.GetTransactions block)) puts /\
    addIndexDataForPersistence openchainDB block' blockNumber blockHash writeBatch
      = (writeBatch ++ puts, None).
Proof.
  intros Hsame.
  set (transactions := protos.GetTransactions block) in *.
  exists (hash_entry blockNumber blockHash
            :: guid_entries blockNumber 0 transactions
            ++ (address_entry blockNumber
                  <$> map_to_list (txIndexes_of blockNumber transactions))).
  split; [apply addIndexDataForPersistence_entries|]. split.
  - constructor; [apply HashToNumber|]. apply Forall_app. split.
    + apply (guid_entries_in blockNumber blockHash transactions []).
    + apply Forall_fmap, Forall_forall. intros [address txsIndexes] Hin.
      apply elem_of_map_to_list in Hin. rewrite lookup_txIndexes_of in Hin.
      unfold address_entry. cbn [fst snd compose].
      destruct (positions address 0 transactions) as [|i l] eqn:Hpos;
        [discriminate|].
      injection Hin as <-. rewrite <- Hpos. apply AddressToTxList.
      apply (positions_nonempty address transactions 0). now rewrite Hpos.
  - rewrite addIndexDataForPersistence_entries.
    apply Forall2_length in Hsame. symmetry in Hsame.
    rewrite (guid_entries_length_only _ _ _ Hsame).
    rewrite (txIndexes_of_length_only _ _ _ Hsame). reflexivity.
Qed.

Lemma addIndexDataForPersistence_writes_index_entries_only_witness :
  let deploy :=
    protos.mkTransaction protos.Transaction_CHAINLET_NEW
      (Some (protos.mkChainletID "url" "1")) [uint8 5] "u1" in
  let invoke :=
    protos.mkTransaction protos.Transaction_CHAINLET_EXECUTE None [uint8 5] "u1" in
  Forall2 same_but_deployment [deploy] [invoke] /\
  exists puts : list gorocksdb.put,
    addIndexDataForPersistence (db.handle_over ∅)
      (Some (protos.mkBlock [deploy] [] [])) 7 [uint8 9] []
      = ([] ++ puts, None) /\
    Forall (index_entry 7 [uint8 9] [deploy]) puts /\
    addIndexDataForPersistence (db.handle_over ∅)
      (Some (protos.mkBlock [invoke] [] [])) 7 [uint8 9] []
      = ([] ++ puts, None).
Proof.
  intros deploy invoke.
  assert (H : Forall2 same_but_deployment [deploy] [invoke])
    by (repeat constructor).
  split; [exact H|].
  exact (addIndexDataForPersistence_writes_index_entries_only (db.handle_over ∅)
           (Some (protos.mkBlock [deploy] [] []))
           (Some (protos.mkBlock [invoke] [] [])) 7 [uint8 9] [] H).
Defined.

(** Committing GUID entries that all go to one key leaves the last value. *)
Lemma commit_same_key_last (key : list byte) (value : nat -> list byte)
    (count : nat) (indexes : gmap (list byte) (list byte)) :
  gorocksdb.commit gorocksdb.IndexesCF indexes
    ((fun i => gorocksdb.mkPut gorocksdb.IndexesCF key (value i)) <$> seq 0 (S count))
  !! key = Some (value count).
Proof.
  unfold gorocksdb.commit.
  rewrite seq_S, fmap_app, foldl_app. cbn [fmap list_fmap foldl gorocksdb.apply_put Nat.add].
  apply lookup_insert_eq.
Qed.

(** C10. The accessors return the same GUID bytes ("TODO:Fetch guid from Tx")
    and the same executing address ("address1") for every transaction.  So,
    for a block of two or more transactions, every GUID entry of the batch is
    a put to one key, and committing the batch leaves under that key the
    location of the last transaction; and the batch ends with a single
    address entry, that of "address1" with all the positions of the block. *)
Theorem stub_accessors_collapse_entries
    (t1 t2 : protos.Transaction)
    (openchainDB : db.OpenchainDB) (block : option protos.Block)
    (blockNumber : Z) (blockHash : list byte) (writeBatch : gorocksdb.WriteBatch)
    (indexes : gmap (list byte) (list byte)) :
  (2 <= length (protos.GetTransactions block))%nat ->
  (getTxGUIDBytes t1 = bytes_of_string "TODO:Fetch guid from Tx" /\
   getTxGUIDBytes t2 = getTxGUIDBytes t1 /\
   getTxExecutingAddress t1 = "address1"%string /\
   getTxExecutingAddress t2 = getTxExecutingAddress t1) /\
  addIndexDataForPersistence openchainDB block blockNumber blockHash writeBatch
  = (writeBatch
       ++ hash_entry blockNumber blockHash
       :: ((fun i => gorocksdb.mkPut gorocksdb.IndexesCF
                       (encodeTxGUIDKey (bytes_of_string "TODO:Fetch guid from Tx"))
                       (encodeBlockNumTxIndex blockNumber (Z.of_nat i)))
             <$> seq 0 (length (protos.GetTransactions block)))
       ++ [gorocksdb.mkPut gorocksdb.IndexesCF
             (encodeAddressBlockNumCompositeKey "address1" blockNumber)
             (encodeListTxIndexes
                (Z.of_nat <$> seq 0 (length (protos.GetTransactions block))))],
     None) /\
  gorocksdb.commit gorocksdb.IndexesCF indexes
    (addIndexDataForPersistence openchainDB block blockNumber blockHash writeBatch).1
  !! encodeTxGUIDKey (bytes_of_string "TODO:Fetch guid from Tx")
  = Some (encodeBlockNumTxIndex blockNumber
            (Z.of_nat (length (protos.GetTransactions block) - 1))).
Proof.
  intros Hlen.
  assert (Hne : protos.GetTransactions block <> [])
    by (intros E; rewrite E in Hlen; simpl in Hlen; lia).
  split; [repeat split|].
  split; [apply (addIndexDataForPersistence_stub _ _ _ _ _ Hne)|].
  rewrite (addIndexDataForPersistence_stub _ _ _ _ _ Hne). cbn [fst].
  destruct (length (protos.GetTransactions block)) as [|count]; [lia|].
  replace (S count - 1)%nat with count by lia.
  unfold gorocksdb.commit.
  rewrite foldl_app. cbn [foldl].
  rewrite foldl_app. cbn [foldl gorocksdb.apply_put].
  rewrite lookup_insert_ne by (symmetry; apply encodeTxGUIDKey_ne_address).
  apply (commit_same_key_last stubGUIDKey
           (fun i => encodeBlockNumTxIndex blockNumber (Z.of_nat i))).
Qed.

Lemma stub_accessors_collapse_entries_witness :
  let deploy :=
    protos.mkTransaction protos.Transaction_CHAINLET_NEW
      (Some (protos.mkChainletID "url" "1")) [uint8 5] "u1" in
  let invoke :=
    protos.mkTransaction protos.Transaction_CHAINLET_EXECUTE None [uint8 6] "u2" in
  let block := Some (protos.mkBlock [deploy; invoke] [] []) in
  (2 <= length (protos.GetTransactions block))%nat /\
  getTxGUIDBytes invoke = getTxGUIDBytes deploy /\
  gorocksdb.commit gorocksdb.IndexesCF ∅
    (addIndexDataForPersistence (db.handle_over ∅) block 7 [uint8 9] []).1
  !! encodeTxGUIDKey (bytes_of_string "TODO:Fetch guid from Tx")
  = Some (encodeBlockNumTxIndex 7 1).
Proof.
  intros deploy invoke block.
  assert (H : (2 <= length (protos.GetTransactions block))%nat)
    by (simpl; lia).
  pose proof (stub_accessors_collapse_entries deploy invoke (db.handle_over ∅)
                block 7 [uint8 9] [] ∅ H) as [(_ & Hguid & _) (_ & Hcommit)].
  exact (conj H (conj Hguid Hcommit)).
Defined.

(** * Further properties of the codec *)

(** ** Shape of an encoded integer *)

Lemma EncodeVarint_loop_shape (room : nat) :
  forall x : Z,
    (0 < room)%nat -> 0 <= x < 2 ^ (7 * Z.of_nat room) ->
    exists (init : list byte) (last : byte),
      proto.EncodeVarint_loop room x = init ++ [last] /\
      truncated_varint init /\ byte_to_Z last < 0x80 /\
      (length (proto.EncodeVarint_loop room x) <= room)%nat.
Proof.
  induction room as [|room IH]; intros x Hpos Hx; [lia|].
  cbn [proto.EncodeVarint_loop].
  destruct (127 <? x) eqn:Hbig.
  - apply Z.ltb_lt in Hbig.
    assert (Hq : 1 <= x / 128) by (apply Z.div_le_lower_bound; lia).
    assert (Hroom : x / 128 < 2 ^ (7 * Z.of_nat room)).
    { apply Z.div_lt_upper_bound; [lia|].
      replace (7 * Z.of_nat (S room)) with (7 + 7 * Z.of_nat room) in Hx by lia.
      rewrite Z.pow_add_r in Hx by lia. change (2 ^ 7) with 128 in Hx. lia. }
    rewrite Z.shiftr_div_pow2 by lia. change (2 ^ 7) with 128.
    destruct (IH (x / 128)) as (init & last & Heq & Hinit & Hlast & Hlen).
    + destruct room; [simpl in Hroom; lia | lia].
    + lia.
    + exists (uint8 (Z.lor 0x80 (Z.land x 0x7F)) :: init), last.
      rewrite Heq. repeat split.
      * constructor; [|exact Hinit].
        rewrite continuation_byte.
        pose proof (Z.mod_pos_bound x 128 eq_refl). lia.
      * exact Hlast.
      * rewrite <- Heq. cbn [length]. lia.
  - apply Z.ltb_ge in Hbig.
    exists [], (uint8 x). repeat split.
    + constructor.
    + rewrite byte_to_Z_uint8_small; lia.
    + cbn [length]. lia.
Qed.

(** X1. The value written for a uint64 block number is self-delimiting: it
    has between one and ten bytes, of which every byte but the last has its
    high bit set and the last has not. *)
Theorem encodeBlockNumber_self_delimiting (blockNumber : Z) :
  is_uint64 blockNumber ->
  exists (init : list byte) (last : byte),
    encodeBlockNumber blockNumber = init ++ [last] /\
    Forall (fun b => 0x80 <= byte_to_Z b) init /\
    byte_to_Z last < 0x80 /\
    (1 <= length (encodeBlockNumber blockNumber) <= 10)%nat.
Proof.
  intros Hn. unfold encodeBlockNumber, proto.EncodeVarint.
  destruct (EncodeVarint_loop_shape proto.maxVarintBytes blockNumber)
    as (init & last & Heq & Hinit & Hlast & Hlen).
  - unfold proto.maxVarintBytes. lia.
  - split; [apply Hn | now apply uint64_fits_room].
  - exists init, last. repeat split; try assumption.
    rewrite Heq, length_app. cbn [length]. lia.
Qed.

Lemma encodeBlockNumber_self_delimiting_witness :
  is_uint64 300 /\
  exists (init : list byte) (last : byte),
    encodeBlockNumber 300 = init ++ [last] /\
    Forall (fun b => 0x80 <= byte_to_Z b) init /\
    byte_to_Z last < 0x80 /\
    (1 <= length (encodeBlockNumber 300) <= 10)%nat.
Proof.
  assert (H : is_uint64 300) by (split; [lia | reflexivity]).
  exact (conj H (encodeBlockNumber_self_delimiting 300 H)).
Defined.

(** ** Values followed by more bytes *)

(** An encoded integer at the head of a buffer is read back, with the number
    of bytes it takes, whatever follows it. *)
Lemma DecodeVarint_EncodeVarint_app (x : Z) (rest : list byte) :
  is_uint64 x ->
  proto.DecodeVarint_loop (proto.EncodeVarint x ++ rest) 0 0 0
  = proto.VarintOk x (length (proto.EncodeVarint x)).
Proof.
  intros Hx. unfold proto.EncodeVarint.
  rewrite DecodeVarint_loop_EncodeVarint_loop.
  - rewrite Z.add_0_l, Z.pow_0_r, Z.mul_1_r. reflexivity.
  - lia.
  - exact Hx.
  - unfold proto.maxVarintBytes. lia.
  - now apply uint64_fits_room.
  - simpl. lia.
Qed.

(** X2. [decodeBlockNumber] reads the first integer of the buffer and
    disregards what follows: bytes after an encoded block number do not
    change the result. *)
Theorem decodeBlockNumber_ignores_trailing_bytes
    (blockNumber : Z) (trailing : list byte) :
  is_uint64 blockNumber ->
  decodeBlockNumber (encodeBlockNumber blockNumber ++ trailing) = blockNumber.
Proof.
  intros Hn. unfold decodeBlockNumber, encodeBlockNumber, proto.DecodeVarint.
  now rewrite DecodeVarint_EncodeVarint_app.
Qed.

Lemma decodeBlockNumber_ignores_trailing_bytes_witness :
  is_uint64 300 /\
  decodeBlockNumber (encodeBlockNumber 300 ++ [uint8 0xFF; uint8 0xFF]) = 300.
Proof.
  assert (H : is_uint64 300) by (split; [lia | reflexivity]).
  exact (conj H (decodeBlockNumber_ignores_trailing_bytes 300
                   [uint8 0xFF; uint8 0xFF] H)).
Defined.

(** X3. [decodeBlockNumTxIndex] reads two integers and disregards what
    follows: bytes after an encoded location are accepted, with a nil
    error. *)
Theorem decodeBlockNumTxIndex_ignores_trailing_bytes
    (blockNumber txIndexInBlock : Z) (trailing : list byte) :
  is_uint64 blockNumber -> is_uint64 txIndexInBlock ->
  decodeBlockNumTxIndex (encodeBlockNumTxIndex blockNumber txIndexInBlock ++ trailing)
  = (blockNumber, txIndexInBlock, None).
Proof.
  intros Hb Hi. rewrite encodeBlockNumTxIndex_bytes, <- app_assoc.
  unfold decodeBlockNumTxIndex, proto.NewBuffer.
  pose proof (Buffer_DecodeVarint_EncodeVarint []
                (proto.EncodeVarint txIndexInBlock ++ trailing) blockNumber Hb) as H1.
  cbn [app length Nat.add] in H1. rewrite H1.
  now rewrite (Buffer_DecodeVarint_EncodeVarint
                 (proto.EncodeVarint blockNumber) trailing txIndexInBlock Hi).
Qed.

Lemma decodeBlockNumTxIndex_ignores_trailing_bytes_witness :
  is_uint64 7 /\ is_uint64 300 /\
  decodeBlockNumTxIndex (encodeBlockNumTxIndex 7 300 ++ [uint8 0x80])
  = (7, 300, None).
Proof.
  assert (H1 : is_uint64 7) by (split; [lia | reflexivity]).
  assert (H2 : is_uint64 300) by (split; [lia | reflexivity]).
  exact (conj H1 (conj H2
           (decodeBlockNumTxIndex_ignores_trailing_bytes 7 300 [uint8 0x80] H1 H2))).
Defined.

(** X4. When already the first integer of a location value is truncated or
    missing (the empty buffer included), [decodeBlockNumTxIndex] stops at
    the first read: it returns that read's error, and a zero index. *)
Theorem decodeBlockNumTxIndex_truncated_first (bytes : list byte) :
  truncated_varint bytes ->
  exists blockNum,
    decodeBlockNumTxIndex bytes
    = (blockNum, 0,
       Some (if 7 * Z.of_nat (length bytes) <? 64
             then io_ErrUnexpectedEOF else proto_errOverflow)).
Proof.
  intros Htrunc.
  unfold decodeBlockNumTxIndex, proto.NewBuffer, proto.Buffer_DecodeVarint.
  cbn [proto.buf proto.index]. rewrite drop_0.
  destruct (DecodeVarint_loop_truncated bytes Htrunc 0 0 0%nat) as [x Hx].
  rewrite Hx, Z.add_0_l. exists x.
  destruct (7 * Z.of_nat (length bytes) <? 64); reflexivity.
Qed.

Lemma decodeBlockNumTxIndex_truncated_first_witness :
  truncated_varint [] /\
  exists blockNum,
    decodeBlockNumTxIndex [] = (blockNum, 0, Some io_ErrUnexpectedEOF).
Proof.
  assert (H : truncated_varint []) by constructor.
  exact (conj H (decodeBlockNumTxIndex_truncated_first [] H)).
Defined.

(** ** Injectivity of the encodings *)

(** Two buffers that start with an encoded integer and are equal start with
    the same integer and go on with the same bytes. *)
Lemma EncodeVarint_app_inj (x y : Z) (r1 r2 : list byte) :
  is_uint64 x -> is_uint64 y ->
  proto.EncodeVarint x ++ r1 = proto.EncodeVarint y ++ r2 ->
  x = y /\ r1 = r2.
Proof.
  intros Hx Hy Heq.
  pose proof (DecodeVarint_EncodeVarint_app x r1 Hx) as H1.
  pose proof (DecodeVarint_EncodeVarint_app y r2 Hy) as H2.
  rewrite Heq, H2 in H1. injection H1 as Hxy _. subst y.
  split; [reflexivity|]. now apply app_inv_head in Heq.
Qed.

Lemma bytes_of_string_inj (s1 s2 : string) :
  bytes_of_string s1 = bytes_of_string s2 -> s1 = s2.
Proof.
  unfold bytes_of_string. intros H.
  rewrite <- (string_of_list_byte_of_string s1),
          <- (string_of_list_byte_of_string s2).
  now rewrite H.
Qed.

Lemma encodeListTxIndexes_bytes (listTx : list Z) :
  encodeListTxIndexes listTx = flat_map proto.EncodeVarint listTx.
Proof.
  unfold encodeListTxIndexes, proto.Bytes.
  change (flat_map proto.EncodeVarint listTx)
    with (proto.buf (proto.NewBuffer []) ++ flat_map proto.EncodeVarint listTx).
  generalize (proto.NewBuffer []).
  induction listTx as [|i listTx IH]; intros b; cbn [foldl flat_map].
  - now rewrite app_nil_r.
  - rewrite IH, Buffer_EncodeVarint_buf. now rewrite <- app_assoc.
Qed.

(** X5. Distinct locations have distinct values: on uint64 arguments
    [encodeBlockNumber] and [encodeBlockNumTxIndex] are injective. *)
Theorem value_encodings_injective (n n' b b' i i' : Z) :
  is_uint64 n -> is_uint64 n' ->
  is_uint64 b -> is_uint64 b' -> is_uint64 i -> is_uint64 i' ->
  (encodeBlockNumber n = encodeBlockNumber n' -> n = n') /\
  (encodeBlockNumTxIndex b i = encodeBlockNumTxIndex b' i' -> b = b' /\ i = i').
Proof.
  intros Hn Hn' Hb Hb' Hi Hi'. split.
  - unfold encodeBlockNumber. intros Heq.
    apply (EncodeVarint_app_inj n n' [] []); [assumption..|].
    now rewrite !app_nil_r.
  - rewrite !encodeBlockNumTxIndex_bytes. intros Heq.
    apply EncodeVarint_app_inj in Heq as [-> Heq]; [|assumption..].
    split; [reflexivity|].
    apply (EncodeVarint_app_inj i i' [] []); [assumption..|].
    now rewrite !app_nil_r.
Qed.

Lemma value_encodings_injective_witness :
  is_uint64 300 /\ is_uint64 7 /\
  (encodeBlockNumber 300 = encodeBlockNumber 300 -> 300 = 300) /\
  (encodeBlockNumTxIndex 7 300 = encodeBlockNumTxIndex 7 300 -> 7 = 7 /\ 300 = 300).
Proof.
  assert (H1 : is_uint64 300) by (split; [lia | reflexivity]).
  assert (H2 : is_uint64 7) by (split; [lia | reflexivity]).
  exact (conj H1 (conj H2
           (value_encodings_injective 300 300 7 7 300 300 H1 H1 H2 H2 H1 H1))).
Defined.

(** X6. The value of an address entry is the concatenation of the encoded
    positions, in order: encoding distributes over appending lists, and the
    empty list has the empty value. *)
Theorem encodeListTxIndexes_app (listTx1 listTx2 : list Z) :
  encodeListTxIndexes [] = [] /\
  encodeListTxIndexes (listTx1 ++ listTx2)
  = encodeListTxIndexes listTx1 ++ encodeListTxIndexes listTx2.
Proof.
  split; [reflexivity|].
  rewrite !encodeListTxIndexes_bytes. apply flat_map_app.
Qed.

(** X7. A list of positions can be recovered from its value although its
    length is not stored: on lists of uint64, [encodeListTxIndexes] is
    injective. *)
Theorem encodeListTxIndexes_injective (listTx1 listTx2 : list Z) :
  Forall is_uint64 listTx1 -> Forall is_uint64 listTx2 ->
  encodeListTxIndexes listTx1 = encodeListTxIndexes listTx2 ->
  listTx1 = listTx2.
Proof.
  rewrite !encodeListTxIndexes_bytes.
  intros H1. revert listTx2.
  induction H1 as [|x l1 Hx _ IH]; intros l2 H2 Heq.
  - destruct H2 as [|y l2 Hy _]; [reflexivity|].
    cbn [flat_map] in Heq. symmetry in Heq.
    apply app_eq_nil in Heq as [Heq _].
    exfalso. revert Heq. apply EncodeVarint_loop_nonempty.
    unfold proto.maxVarintBytes. lia.
  - destruct H2 as [|y l2 Hy H2].
    + cbn [flat_map] in Heq. apply app_eq_nil in Heq as [Heq _].
      exfalso. revert Heq. apply EncodeVarint_loop_nonempty.
      unfold proto.maxVarintBytes. lia.
    + cbn [flat_map] in Heq.
      apply EncodeVarint_app_inj in Heq as [-> Heq]; [|assumption..].
      f_equal. now apply IH.
Qed.

Lemma encodeListTxIndexes_injective_witness :
  Forall is_uint64 [0; 300] /\
  (encodeListTxIndexes [0; 300] = encodeListTxIndexes [0; 300] ->
   [0; 300] = [0; 300]).
Proof.
  assert (H : Forall is_uint64 [0; 300])
    by (repeat constructor; try lia; reflexivity).
  exact (conj H (encodeListTxIndexes_injective [0; 300] [0; 300] H H)).
Defined.

(** X8. Hash keys and GUID keys keep their payload: the key is one byte
    longer than the payload, and equal keys come from equal payloads. *)
Theorem prefixed_keys_injective (key1 key2 : list byte) :
  length (encodeBlockHashKey key1) = S (length key1) /\
  length (encodeTxGUIDKey key1) = S (length key1) /\
  (encodeBlockHashKey key1 = encodeBlockHashKey key2 -> key1 = key2) /\
  (encodeTxGUIDKey key1 = encodeTxGUIDKey key2 -> key1 = key2).
Proof.
  unfold encodeBlockHashKey, encodeTxGUIDKey, prependKeyPrefix.
  cbn [app length]. repeat split; intros H; now injection H.
Qed.

(** X9. Keys of the address family do not collide: for addresses whose
    length fits a uint64 and uint64 block numbers, equal keys come from the
    same address and the same block number. *)
Theorem encodeAddressBlockNumCompositeKey_injective
    (address1 address2 : string) (blockNumber1 blockNumber2 : Z) :
  is_uint64 (Z.of_nat (length (bytes_of_string address1))) ->
  is_uint64 (Z.of_nat (length (bytes_of_string address2))) ->
  is_uint64 blockNumber1 -> is_uint64 blockNumber2 ->
  encodeAddressBlockNumCompositeKey address1 blockNumber1
  = encodeAddressBlockNumCompositeKey address2 blockNumber2 ->
  address1 = address2 /\ blockNumber1 = blockNumber2.
Proof.
  intros Hl1 Hl2 Hn1 Hn2. rewrite !encodeAddressBlockNumCompositeKey_bytes.
  intros Heq. injection Heq as Heq.
  apply EncodeVarint_app_inj in Heq as [Hlen Heq]; [|assumption..].
  apply Nat2Z.inj in Hlen.
  apply app_inj_1 in Heq as [Haddr Hnum]; [|exact Hlen].
  split; [now apply bytes_of_string_inj|].
  apply (EncodeVarint_app_inj blockNumber1 blockNumber2 [] []); [assumption..|].
  now rewrite !app_nil_r.
Qed.

Lemma encodeAddressBlockNumCompositeKey_injective_witness :
  is_uint64 (Z.of_nat (length (bytes_of_string "address1"))) /\
  is_uint64 300 /\
  (encodeAddressBlockNumCompositeKey "address1" 300
   = encodeAddressBlockNumCompositeKey "address1" 300 ->
   "address1"%string = "address1"%string /\ 300 = 300).
Proof.
  assert (H1 : is_uint64 (Z.of_nat (length (bytes_of_string "address1"))))
    by (split; [simpl; lia | reflexivity]).
  assert (H2 : is_uint64 300) by (split; [lia | reflexivity]).
  exact (conj H1 (conj H2
           (encodeAddressBlockNumCompositeKey_injective
              "address1" "address1" 300 300 H1 H1 H2 H2))).
Defined.

(** * Further properties of the extraction and of the lookups *)

(** ** Committing a batch *)

Lemma commit_app (cf : gorocksdb.ColumnFamilyHandle)
    (m : gmap (list byte) (list byte)) (wb1 wb2 : gorocksdb.WriteBatch) :
  gorocksdb.commit cf m (wb1 ++ wb2)
  = gorocksdb.commit cf (gorocksdb.commit cf m wb1) wb2.
Proof. apply foldl_app. Qed.

Lemma apply_put_other_key (cf : gorocksdb.ColumnFamilyHandle)
    (m : gmap (list byte) (list byte)) (p : gorocksdb.put) (key : list byte) :
  gorocksdb.put_key p <> key ->
  gorocksdb.apply_put cf m p !! key = m !! key.
Proof.
  destruct p as [cf' k v]. cbn [gorocksdb.put_key]. intros Hne.
  destruct cf, cf'; cbn [gorocksdb.apply_put]; try reflexivity;
    now apply lookup_insert_ne.
Qed.

(** A key to which the batch has no put keeps its value. *)
Lemma commit_other_keys (cf : gorocksdb.ColumnFamilyHandle)
    (wb : gorocksdb.WriteBatch) (key : list byte) :
  Forall (fun p => gorocksdb.put_key p <> key) wb ->
  forall m : gmap (list byte) (list byte),
    gorocksdb.commit cf m wb !! key = m !! key.
Proof.
  unfold gorocksdb.commit.
  induction 1 as [|p wb Hp _ IH]; intros m; cbn [foldl]; [reflexivity|].
  rewrite IH. now apply apply_put_other_key.
Qed.

(** A namespace to which the batch has no put keeps its contents. *)
Lemma commit_other_cf (cf : gorocksdb.ColumnFamilyHandle)
    (wb : gorocksdb.WriteBatch) :
  cf <> gorocksdb.IndexesCF ->
  Forall (fun p => gorocksdb.put_cf p = gorocksdb.IndexesCF) wb ->
  forall m : gmap (list byte) (list byte), gorocksdb.commit cf m wb = m.
Proof.
  unfold gorocksdb.commit. intros Hcf.
  induction 1 as [|[cf' k v] wb Hp _ IH]; intros m; cbn [foldl]; [reflexivity|].
  cbn [gorocksdb.put_cf] in Hp. subst cf'. rewrite <- (IH m) at 2.
  f_equal. destruct cf; cbn [gorocksdb.apply_put]; congruence.
Qed.

(** ** The entries of a block *)

Lemma addIndexDataForPersistence_block_entries (openchainDB : db.OpenchainDB)
    (block : option protos.Block) (blockNumber : Z) (blockHash : list byte)
    (writeBatch : gorocksdb.WriteBatch) :
  addIndexDataForPersistence openchainDB block blockNumber blockHash writeBatch
  = (writeBatch
       ++ block_entries blockNumber blockHash (protos.GetTransactions block),
     None).
Proof. apply addIndexDataForPersistence_entries. Qed.

Lemma guid_entries_length (blockNumber : Z) (transactions : list protos.Transaction) :
  forall txIndex : nat,
    length (guid_entries blockNumber txIndex transactions) = length transactions.
Proof.
  induction transactions as [|tx rest IH]; intros txIndex; cbn [guid_entries length];
    [reflexivity | now rewrite IH].
Qed.

Lemma guid_entries_family (blockNumber : Z) (transactions : list protos.Transaction) :
  forall txIndex : nat,
    Forall (fun p => gorocksdb.put_cf p = gorocksdb.IndexesCF /\
                     head (gorocksdb.put_key p) = Some prefixTxGUIDKey)
      (guid_entries blockNumber txIndex transactions).
Proof.
  induction transactions as [|tx rest IH]; intros txIndex; cbn [guid_entries];
    constructor; [split; reflexivity | apply IH].
Qed.

Lemma address_entries_family (blockNumber : Z) (entries : list (string * list Z)) :
  Forall (fun p => gorocksdb.put_cf p = gorocksdb.IndexesCF /\
                   head (gorocksdb.put_key p) = Some prefixAddressBlockNumCompositeKey)
    (address_entry blockNumber <$> entries).
Proof.
  apply Forall_fmap, Forall_forall. intros [address l] _.
  split; [reflexivity|]. apply head_encodeAddressBlockNumCompositeKey.
Qed.

Lemma block_entries_cf (blockNumber : Z) (blockHash : list byte)
    (transactions : list protos.Transaction) :
  Forall (fun p => gorocksdb.put_cf p = gorocksdb.IndexesCF)
    (block_entries blockNumber blockHash transactions).
Proof.
  unfold block_entries. constructor; [reflexivity|].
  apply Forall_app. split.
  - eapply Forall_impl; [apply guid_entries_family|]. now intros p [H _].
  - eapply Forall_impl; [apply address_entries_family|]. now intros p [H _].
Qed.

(** After the hash entry, the entries of a block leave hash keys alone. *)
Lemma block_entries_tail_keys (blockNumber : Z)
    (transactions : list protos.Transaction) (blockHash : list byte) :
  Forall (fun p => gorocksdb.put_key p <> encodeBlockHashKey blockHash)
    (guid_entries blockNumber 0 transactions
     ++ (address_entry blockNumber
           <$> map_to_list (txIndexes_of blockNumber transactions))).
Proof.
  apply Forall_app. split.
  - eapply Forall_impl; [apply guid_entries_family|].
    intros p [_ H] Heq. rewrite Heq in H. discriminate.
  - eapply Forall_impl; [apply address_entries_family|].
    intros p [_ H] Heq. rewrite Heq in H. discriminate.
Qed.

Lemma size_txIndexes_of_stub (blockNumber : Z) (transactions : list protos.Transaction) :
  length (map_to_list (txIndexes_of blockNumber transactions))
  = Nat.min 1 (length transactions).
Proof.
  destruct transactions as [|tx rest]; [reflexivity|].
  rewrite txIndexes_of_stub by discriminate.
  now rewrite map_to_list_singleton.
Qed.

(** X10. [createIndexesSync] only appends to the caller's batch: the puts
    already queued stay, in order, in front of the new ones; the error is nil
    and the store is not touched.  A block of [n] transactions adds one hash
    entry, [n] GUID entries and, unless [n] is zero, one address entry. *)
Theorem createIndexesSync_appends
    (indexer : blockchainIndexerSync) (block : option protos.Block)
    (blockNumber : Z) (blockHash : list byte) (writeBatch : gorocksdb.WriteBatch)
    (openchainDB : db.OpenchainDB) :
  exists puts : list gorocksdb.put,
    createIndexesSync indexer block blockNumber blockHash writeBatch openchainDB
      = (writeBatch ++ puts, None, openchainDB) /\
    length puts
      = (1 + length (protos.GetTransactions block)
         + Nat.min 1 (length (protos.GetTransactions block)))%nat.
Proof.
  exists (block_entries blockNumber blockHash (protos.GetTransactions block)).
  split.
  - cbn [createIndexesSync blockchainIndexerSync_methods].
    now rewrite addIndexDataForPersistence_block_entries.
  - unfold block_entries. cbn [length].
    rewrite length_app, guid_entries_length, length_fmap, size_txIndexes_of_stub.
    lia.
Qed.

(** X11. Indexing a block writes to the index namespace only: committed to
    any other column family, the batch filled by [addIndexDataForPersistence]
    has the effect of the caller's batch alone. *)
Theorem addIndexDataForPersistence_other_namespaces_untouched
    (openchainDB : db.OpenchainDB) (block : option protos.Block)
    (blockNumber : Z) (blockHash : list byte) (writeBatch : gorocksdb.WriteBatch)
    (cf : gorocksdb.ColumnFamilyHandle) (contents : gmap (list byte) (list byte)) :
  cf <> gorocksdb.IndexesCF ->
  gorocksdb.commit cf contents
    (addIndexDataForPersistence openchainDB block blockNumber blockHash writeBatch).1
  = gorocksdb.commit cf contents writeBatch.
Proof.
  intros Hcf. rewrite addIndexDataForPersistence_block_entries. cbn [fst].
  rewrite commit_app. apply commit_other_cf; [exact Hcf|]. apply block_entries_cf.
Qed.

Lemma addIndexDataForPersistence_other_namespaces_untouched_witness :
  let tx := protos.mkTransaction protos.Transaction_CHAINLET_NEW None [] "u" in
  let own := [gorocksdb.mkPut gorocksdb.StateCF [uint8 1] [uint8 2]] in
  gorocksdb.StateCF <> gorocksdb.IndexesCF /\
  gorocksdb.commit gorocksdb.StateCF ∅
    (addIndexDataForPersistence (db.handle_over ∅)
       (Some (protos.mkBlock [tx] [] [])) 7 [uint8 9] own).1
  = gorocksdb.commit gorocksdb.StateCF ∅ own.
Proof.
  intros tx own.
  assert (H : gorocksdb.StateCF <> gorocksdb.IndexesCF) by discriminate.
  exact (conj H
           (addIndexDataForPersistence_other_namespaces_untouched (db.handle_over ∅)
              (Some (protos.mkBlock [tx] [] [])) 7 [uint8 9] own
              gorocksdb.StateCF ∅ H)).
Defined.

(** ** Indexing, then looking up *)

Lemma decodeBlockNumber_encodeBlockNumber (blockNumber : Z) :
  is_uint64 blockNumber -> decodeBlockNumber (encodeBlockNumber blockNumber) = blockNumber.
Proof.
  intros Hn. unfold decodeBlockNumber, encodeBlockNumber.
  now rewrite DecodeVarint_EncodeVarint.
Qed.

Lemma decodeBlockNumTxIndex_encodeBlockNumTxIndex (blockNumber txIndexInBlock : Z) :
  is_uint64 blockNumber -> is_uint64 txIndexInBlock ->
  decodeBlockNumTxIndex (encodeBlockNumTxIndex blockNumber txIndexInBlock)
  = (blockNumber, txIndexInBlock, None).
Proof.
  intros Hb Hi. rewrite encodeBlockNumTxIndex_bytes.
  unfold decodeBlockNumTxIndex, proto.NewBuffer.
  pose proof (Buffer_DecodeVarint_EncodeVarint []
                (proto.EncodeVarint txIndexInBlock) blockNumber Hb) as H1.
  cbn [app length Nat.add] in H1. rewrite H1.
  pose proof (Buffer_DecodeVarint_EncodeVarint
                (proto.EncodeVarint blockNumber) [] txIndexInBlock Hi) as H2.
  rewrite app_nil_r in H2. now rewrite H2.
Qed.

(** The value under the hash key after the commit is that of the hash entry:
    no later entry of the block goes to a hash key. *)
Lemma lookup_hash_after_commit (indexer : blockchainIndexerSync)
    (openchainDB : db.OpenchainDB) (indexes : gmap (list byte) (list byte))
    (block : option protos.Block) (blockNumber : Z) (blockHash : list byte)
    (writeBatch : gorocksdb.WriteBatch) :
  indexes_after_commit indexer openchainDB indexes block blockNumber blockHash writeBatch
    !! encodeBlockHashKey blockHash
  = Some (encodeBlockNumber blockNumber).
Proof.
  unfold indexes_after_commit.
  cbn [createIndexesSync blockchainIndexerSync_methods].
  rewrite addIndexDataForPersistence_block_entries. cbn [fst].
  unfold block_entries.
  rewrite commit_app.
  change (hash_entry blockNumber blockHash :: ?l)
    with ([hash_entry blockNumber blockHash] ++ l).
  rewrite commit_app, commit_other_keys by apply block_entries_tail_keys.
  apply lookup_insert_eq.
Qed.

(** The value under a hash key other than the block's is left as the
    caller's batch has it. *)
Lemma lookup_other_hash_after_commit (indexer : blockchainIndexerSync)
    (openchainDB : db.OpenchainDB) (indexes : gmap (list byte) (list byte))
    (block : option protos.Block) (blockNumber : Z) (blockHash otherHash : list byte)
    (writeBatch : gorocksdb.WriteBatch) :
  otherHash <> blockHash ->
  indexes_after_commit indexer openchainDB indexes block blockNumber blockHash writeBatch
    !! encodeBlockHashKey otherHash
  = gorocksdb.commit gorocksdb.IndexesCF indexes writeBatch
      !! encodeBlockHashKey otherHash.
Proof.
  intros Hne. unfold indexes_after_commit.
  cbn [createIndexesSync blockchainIndexerSync_methods].
  rewrite addIndexDataForPersistence_block_entries. cbn [fst].
  rewrite commit_app. apply commit_other_keys.
  unfold block_entries. constructor.
  - cbn [hash_entry gorocksdb.put_key]. intros Heq. apply Hne.
    unfold encodeBlockHashKey, prependKeyPrefix in Heq. cbn [app] in Heq.
    now injection Heq.
  - apply block_entries_tail_keys.
Qed.

(** X12. A block indexed by [createIndexesSync] is found by its hash: once
    the batch is committed, whatever the batch and the index held before,
    [fetchBlockNumberByBlockHash] returns the (uint64) number under which the
    block was indexed, with a nil error. *)
Theorem fetchBlockNumberByBlockHash_after_createIndexesSync
    (indexer : blockchainIndexerSync)
    (openchainDB : db.OpenchainDB) (indexes : gmap (list byte) (list byte))
    (block : option protos.Block) (blockNumber : Z) (blockHash : list byte)
    (writeBatch : gorocksdb.WriteBatch) :
  is_uint64 blockNumber ->
  fetchBlockNumberByBlockHashFromDB
    (db.handle_over
       (indexes_after_commit indexer openchainDB indexes block blockNumber blockHash
          writeBatch))
    blockHash
  = (blockNumber, None).
Proof.
  intros Hn.
  rewrite (fetchBlockNumberByBlockHashFromDB_stored _ _ (encodeBlockNumber blockNumber)).
  - now rewrite decodeBlockNumber_encodeBlockNumber.
  - cbn [db.GetFromIndexesCF db.handle_over].
    now rewrite lookup_hash_after_commit.
Qed.

Lemma fetchBlockNumberByBlockHash_after_createIndexesSync_witness :
  let tx := protos.mkTransaction protos.Transaction_CHAINLET_EXECUTE None [] "u" in
  is_uint64 7 /\
  fetchBlockNumberByBlockHashFromDB
    (db.handle_over
       (indexes_after_commit newBlockchainIndexerSync (db.handle_over ∅) ∅
          (Some (protos.mkBlock [tx; tx] [] [])) 7 [uint8 9] []))
    [uint8 9]
  = (7, None).
Proof.
  intros tx.
  assert (H : is_uint64 7) by (split; [lia | reflexivity]).
  exact (conj H
           (fetchBlockNumberByBlockHash_after_createIndexesSync
              newBlockchainIndexerSync (db.handle_over ∅) ∅
              (Some (protos.mkBlock [tx; tx] [] [])) 7 [uint8 9] [] H)).
Defined.

(** X13. Indexing a block does not disturb the lookup of another hash: for a
    hash other than the block's, [fetchBlockNumberByBlockHash] gives after the
    commit what it gives when the caller's batch alone is committed. *)
Theorem fetchBlockNumberByBlockHash_other_hash_unchanged
    (indexer : blockchainIndexerSync)
    (openchainDB : db.OpenchainDB) (indexes : gmap (list byte) (list byte))
    (block : option protos.Block) (blockNumber : Z) (blockHash otherHash : list byte)
    (writeBatch : gorocksdb.WriteBatch) :
  otherHash <> blockHash ->
  fetchBlockNumberByBlockHashFromDB
    (db.handle_over
       (indexes_after_commit indexer openchainDB indexes block blockNumber blockHash
          writeBatch))
    otherHash
  = fetchBlockNumberByBlockHashFromDB
      (db.handle_over (gorocksdb.commit gorocksdb.IndexesCF indexes writeBatch))
      otherHash.
Proof.
  intros Hne. unfold fetchBlockNumberByBlockHashFromDB.
  cbn [db.GetFromIndexesCF db.handle_over].
  now rewrite lookup_other_hash_after_commit.
Qed.

Lemma fetchBlockNumberByBlockHash_other_hash_unchanged_witness :
  let tx := protos.mkTransaction protos.Transaction_CHAINLET_EXECUTE None [] "u" in
  let earlier : gmap (list byte) (list byte) :=
    {[ encodeBlockHashKey [uint8 8] := encodeBlockNumber 6 ]} in
  [uint8 8] <> [uint8 9] /\
  fetchBlockNumberByBlockHashFromDB
    (db.handle_over
       (indexes_after_commit newBlockchainIndexerSync (db.handle_over earlier) earlier
          (Some (protos.mkBlock [tx] [] [])) 7 [uint8 9] []))
    [uint8 8]
  = fetchBlockNumberByBlockHashFromDB
      (db.handle_over (gorocksdb.commit gorocksdb.IndexesCF earlier []))
      [uint8 8].
Proof.
  intros tx earlier.
  assert (H : [uint8 8] <> [uint8 9]) by discriminate.
  exact (conj H
           (fetchBlockNumberByBlockHash_other_hash_unchanged
              newBlockchainIndexerSync (db.handle_over earlier) earlier
              (Some (protos.mkBlock [tx] [] [])) 7 [uint8 9] [uint8 8] [] H)).
Defined.

(** The value under the GUID key after the commit is the location of the
    last transaction of the block. *)
Lemma lookup_guid_after_commit (indexer : blockchainIndexerSync)
    (openchainDB : db.OpenchainDB) (indexes : gmap (list byte) (list byte))
    (block : option protos.Block) (blockNumber : Z) (blockHash : list byte)
    (writeBatch : gorocksdb.WriteBatch) :
  protos.GetTransactions block <> [] ->
  indexes_after_commit indexer openchainDB indexes block blockNumber blockHash writeBatch
    !! stubGUIDKey
  = Some (encodeBlockNumTxIndex blockNumber
            (Z.of_nat (length (protos.GetTransactions block) - 1))).
Proof.
  intros Hne. unfold indexes_after_commit.
  cbn [createIndexesSync blockchainIndexerSync_methods].
  rewrite (addIndexDataForPersistence_stub _ _ _ _ _ Hne). cbn [fst].
  destruct (length (protos.GetTransactions block)) as [|count] eqn:Hlen.
  { destruct (protos.GetTransactions block); [congruence | discriminate]. }
  replace (S count - 1)%nat with count by lia.
  unfold gorocksdb.commit.
  rewrite foldl_app. cbn [foldl].
  rewrite foldl_app. cbn [foldl gorocksdb.apply_put].
  rewrite lookup_insert_ne by (symmetry; apply encodeTxGUIDKey_ne_address).
  apply (commit_same_key_last stubGUIDKey
           (fun i => encodeBlockNumTxIndex blockNumber (Z.of_nat i))).
Qed.

(** X14. With the GUID accessor as it is, the lookup by the GUID of any
    transaction, after a block with transactions is indexed under a uint64
    number and committed, returns that number and the position of the last
    transaction of the block, with a nil error. *)
Theorem fetchTransactionIndexByGUID_after_createIndexesSync
    (indexer : blockchainIndexerSync)
    (openchainDB : db.OpenchainDB) (indexes : gmap (list byte) (list byte))
    (block : option protos.Block) (blockNumber : Z) (blockHash : list byte)
    (writeBatch : gorocksdb.WriteBatch) (tx : protos.Transaction) :
  is_uint64 blockNumber ->
  protos.GetTransactions block <> [] ->
  Z.of_nat (length (protos.GetTransactions block)) <= 2 ^ 64 ->
  fetchTransactionIndexByGUIDFromDB
    (db.handle_over
       (indexes_after_commit indexer openchainDB indexes block blockNumber blockHash
          writeBatch))
    (getTxGUIDBytes tx)
  = (blockNumber, Z.of_nat (length (protos.GetTransactions block) - 1), None).
Proof.
  intros Hn Hne Hlen.
  unfold fetchTransactionIndexByGUIDFromDB.
  cbn [db.GetFromIndexesCF db.handle_over].
  change (encodeTxGUIDKey (getTxGUIDBytes tx)) with stubGUIDKey.
  rewrite (lookup_guid_after_commit _ _ _ _ _ _ _ Hne).
  apply decodeBlockNumTxIndex_encodeBlockNumTxIndex; [exact Hn|].
  assert (0 < length (protos.GetTransactions block))%nat
    by (destruct (protos.GetTransactions block); [congruence | simpl; lia]).
  split; lia.
Qed.

Lemma fetchTransactionIndexByGUID_after_createIndexesSync_witness :
  let tx1 := protos.mkTransaction protos.Transaction_CHAINLET_EXECUTE None [] "u1" in
  let tx2 := protos.mkTransaction protos.Transaction_CHAINLET_QUERY None [] "u2" in
  let block := Some (protos.mkBlock [tx1; tx2] [] []) in
  is_uint64 7 /\ protos.GetTransactions block <> [] /\
  Z.of_nat (length (protos.GetTransactions block)) <= 2 ^ 64 /\
  fetchTransactionIndexByGUIDFromDB
    (db.handle_over
       (indexes_after_commit newBlockchainIndexerSync (db.handle_over ∅) ∅
          block 7 [uint8 9] []))
    (getTxGUIDBytes tx1)
  = (7, 1, None).
Proof.
  intros tx1 tx2 block.
  assert (H1 : is_uint64 7) by (split; [lia | reflexivity]).
  assert (H2 : protos.GetTransactions block <> []) by discriminate.
  assert (H3 : Z.of_nat (length (protos.GetTransactions block)) <= 2 ^ 64)
    by discriminate.
  exact (conj H1 (conj H2 (conj H3
           (fetchTransactionIndexByGUID_after_createIndexesSync
              newBlockchainIndexerSync (db.handle_over ∅) ∅
              block 7 [uint8 9] [] tx1 H1 H2 H3)))).
Defined.

(** ** The lookup by GUID against given contents *)

(** X15. The lookup by GUID fails on a GUID that is absent from the index:
    the empty value read for it does not decode, and
    [fetchTransactionIndexByGUID] returns [io.ErrUnexpectedEOF] with zero
    results. *)
Theorem fetchTransactionIndexByGUID_absent
    (indexer : blockchainIndexerSync) (indexes : gmap (list byte) (list byte))
    (txGUID : list byte) :
  indexes !! encodeTxGUIDKey txGUID = None ->
  fetchTransactionIndexByGUID indexer txGUID (db.handle_over indexes)
  = (0, 0, Some io_ErrUnexpectedEOF, db.handle_over indexes).
Proof.
  intros Habsent.
  cbn [fetchTransactionIndexByGUID blockchainIndexerSync_methods].
  unfold fetchTransactionIndexByGUIDFromDB.
  cbn [db.GetFromIndexesCF db.handle_over]. now rewrite Habsent.
Qed.

Lemma fetchTransactionIndexByGUID_absent_witness :
  let indexes : gmap (list byte) (list byte) :=
    {[ encodeTxGUIDKey [uint8 1] := encodeBlockNumTxIndex 7 0 ]} in
  indexes !! encodeTxGUIDKey [uint8 2] = None /\
  fetchTransactionIndexByGUID newBlockchainIndexerSync [uint8 2]
    (db.handle_over indexes)
  = (0, 0, Some io_ErrUnexpectedEOF, db.handle_over indexes).
Proof.
  intros indexes.
  assert (H : indexes !! encodeTxGUIDKey [uint8 2] = None)
    by (apply lookup_singleton_ne; discriminate).
  exact (conj H
           (fetchTransactionIndexByGUID_absent newBlockchainIndexerSync indexes
              [uint8 2] H)).
Defined.

(** X16. The lookup by GUID returns the location stored under the GUID's
    key: for a value written by [encodeBlockNumTxIndex] from uint64
    arguments, [fetchTransactionIndexByGUID] returns both with a nil error
    and leaves the store as it was. *)
Theorem fetchTransactionIndexByGUID_stored
    (indexer : blockchainIndexerSync) (indexes : gmap (list byte) (list byte))
    (txGUID : list byte) (blockNumber txIndexInBlock : Z) :
  is_uint64 blockNumber -> is_uint64 txIndexInBlock ->
  indexes !! encodeTxGUIDKey txGUID
    = Some (encodeBlockNumTxIndex blockNumber txIndexInBlock) ->
  fetchTransactionIndexByGUID indexer txGUID (db.handle_over indexes)
  = (blockNumber, txIndexInBlock, None, db.handle_over indexes).
Proof.
  intros Hb Hi Hstored.
  cbn [fetchTransactionIndexByGUID blockchainIndexerSync_methods].
  unfold fetchTransactionIndexByGUIDFromDB.
  cbn [db.GetFromIndexesCF db.handle_over]. rewrite Hstored.
  now rewrite decodeBlockNumTxIndex_encodeBlockNumTxIndex.
Qed.

Lemma fetchTransactionIndexByGUID_stored_witness :
  let indexes : gmap (list byte) (list byte) :=
    {[ encodeTxGUIDKey [uint8 1] := encodeBlockNumTxIndex 7 300 ]} in
  is_uint64 7 /\ is_uint64 300 /\
  indexes !! encodeTxGUIDKey [uint8 1] = Some (encodeBlockNumTxIndex 7 300) /\
  fetchTransactionIndexByGUID newBlockchainIndexerSync [uint8 1]
    (db.handle_over indexes)
  = (7, 300, None, db.handle_over indexes).
Proof.
  intros indexes.
  assert (H1 : is_uint64 7) by (split; [lia | reflexivity]).
  assert (H2 : is_uint64 300) by (split; [lia | reflexivity]).
  assert (H3 : indexes !! encodeTxGUIDKey [uint8 1]
               = Some (encodeBlockNumTxIndex 7 300))
    by apply lookup_singleton_eq.
  exact (conj H1 (conj H2 (conj H3
           (fetchTransactionIndexByGUID_stored newBlockchainIndexerSync indexes
              [uint8 1] 7 300 H1 H2 H3)))).
Defined.

(** ** The map of deployed-unit identifiers *)

Lemma lookup_authorised_append {V : Type} (m : gmap string (list V)) (v : V)
    (address : string) :
  foldl (fun m a => map_append m a v) m ["address1"%string; "address2"%string]
    !! address
  = if decide (address = "address1"%string \/ address = "address2"%string)
    then Some (default [] (m !! address) ++ [v])
    else m !! address.
Proof.
  cbn [foldl]. rewrite !lookup_map_append.
  destruct (decide ("address2"%string = address)) as [<-|Hne2].
  - destruct (decide ("address1"%string = "address2"%string)); [discriminate|].
    destruct (decide (_ \/ _)) as [_|Hno]; [reflexivity|].
    exfalso. apply Hno. now right.
  - destruct (decide ("address1"%string = address)) as [<-|Hne1].
    + destruct (decide (_ \/ _)) as [_|Hno]; [reflexivity|].
      exfalso. apply Hno. now left.
    + destruct (decide (_ \/ _)) as [[->| ->]|_]; congruence.
Qed.

Lemma index_transactions_chainletIDs (blockNumber : Z) (address : string)
    (transactions : list protos.Transaction) :
  forall (st : extraction) (txIndex : nat),
    st_addressToChainletIDsMap
      (index_transactions gorocksdb.IndexesCF blockNumber st txIndex transactions)
      !! address
    = if decide (address = "address1"%string \/ address = "address2"%string)
      then match deployment_ids transactions with
           | [] => st_addressToChainletIDsMap st !! address
           | l => Some (default [] (st_addressToChainletIDsMap st !! address) ++ l)
           end
      else st_addressToChainletIDsMap st !! address.
Proof.
  induction transactions as [|tx rest IH]; intros st txIndex;
    cbn [index_transactions deployment_ids].
  - destruct (decide _); reflexivity.
  - rewrite IH. cbn [index_transaction st_addressToChainletIDsMap].
    unfold getAuthorisedAddresses.
    destruct (protos.Type_ tx); try reflexivity;
      rewrite lookup_authorised_append;
      (destruct (decide (_ \/ _)) as [Hin|Hout]; [|reflexivity]);
      cbn [default from_option id];
      (destruct (deployment_ids rest) as [|c l]; [reflexivity|]);
      now rewrite <- app_assoc.
Qed.

(** X17. What the loop gathers in [addressToChainletIDsMap]: once a block is
    processed, the map has "address1" and "address2" as its only keys, each
    with the deployed-unit identifiers of the block's deployment transactions
    (new or update) in block order, and it is empty when the block has no
    such transaction. *)
Theorem chainletIDs_of_block (blockNumber : Z)
    (transactions : list protos.Transaction) (address : string) :
  chainletIDs_of blockNumber transactions !! address
  = if decide (address = "address1"%string \/ address = "address2"%string)
    then match deployment_ids transactions with
         | [] => None
         | l => Some l
         end
    else None.
Proof.
  unfold chainletIDs_of. rewrite index_transactions_chainletIDs.
  cbn [st_addressToChainletIDsMap]. rewrite lookup_empty. reflexivity.
Qed.

(** ** Blocks indexed one after the other *)

(** X18. Two blocks with different hashes, indexed one after the other into
    the same batch under uint64 numbers, are both found by their hash once
    the batch is committed. *)
Theorem two_blocks_both_found
    (indexer : blockchainIndexerSync)
    (openchainDB : db.OpenchainDB) (indexes : gmap (list byte) (list byte))
    (block1 block2 : option protos.Block) (blockNumber1 blockNumber2 : Z)
    (blockHash1 blockHash2 : list byte) (writeBatch : gorocksdb.WriteBatch) :
  is_uint64 blockNumber1 -> is_uint64 blockNumber2 ->
  blockHash1 <> blockHash2 ->
  let writeBatch1 :=
    (createIndexesSync indexer block1 blockNumber1 blockHash1 writeBatch
       openchainDB).1.1 in
  let committed :=
    indexes_after_commit indexer openchainDB indexes block2 blockNumber2 blockHash2
      writeBatch1 in
  fetchBlockNumberByBlockHashFromDB (db.handle_over committed) blockHash1
    = (blockNumber1, None) /\
  fetchBlockNumberByBlockHashFromDB (db.handle_over committed) blockHash2
    = (blockNumber2, None).
Proof.
  intros Hn1 Hn2 Hne writeBatch1 committed. split.
  - rewrite (fetchBlockNumberByBlockHashFromDB_stored _ _
               (encodeBlockNumber blockNumber1)).
    + now rewrite decodeBlockNumber_encodeBlockNumber.
    + cbn [db.GetFromIndexesCF db.handle_over]. unfold committed.
      rewrite lookup_other_hash_after_commit by exact Hne.
      pose proof (lookup_hash_after_commit indexer openchainDB indexes
                    block1 blockNumber1 blockHash1 writeBatch) as Hfirst.
      unfold indexes_after_commit in Hfirst. fold writeBatch1 in Hfirst.
      now rewrite Hfirst.
  - rewrite (fetchBlockNumberByBlockHashFromDB_stored _ _
               (encodeBlockNumber blockNumber2)).
    + now rewrite decodeBlockNumber_encodeBlockNumber.
    + cbn [db.GetFromIndexesCF db.handle_over]. unfold committed.
      now rewrite lookup_hash_after_commit.
Qed.

Lemma two_blocks_both_found_witness :
  let tx := protos.mkTransaction protos.Transaction_CHAINLET_EXECUTE None [] "u" in
  let block1 := Some (protos.mkBlock [tx] [] []) in
  let block2 := Some (protos.mkBlock [tx; tx] [] []) in
  let writeBatch1 :=
    (createIndexesSync newBlockchainIndexerSync block1 6 [uint8 8] []
       (db.handle_over ∅)).1.1 in
  let committed :=
    indexes_after_commit newBlockchainIndexerSync (db.handle_over ∅) ∅
      block2 7 [uint8 9] writeBatch1 in
  is_uint64 6 /\ is_uint64 7 /\ [uint8 8] <> [uint8 9] /\
  fetchBlockNumberByBlockHashFromDB (db.handle_over committed) [uint8 8] = (6, None) /\
  fetchBlockNumberByBlockHashFromDB (db.handle_over committed) [uint8 9] = (7, None).
Proof.
  intros tx block1 block2 writeBatch1 committed.
  assert (H1 : is_uint64 6) by (split; [lia | reflexivity]).
  assert (H2 : is_uint64 7) by (split; [lia | reflexivity]).
  assert (H3 : [uint8 8] <> [uint8 9]) by discriminate.
  exact (conj H1 (conj H2 (conj H3
           (two_blocks_both_found newBlockchainIndexerSync (db.handle_over ∅) ∅
              block1 block2 6 7 [uint8 8] [uint8 9] [] H1 H2 H3)))).
Defined.

(** X19. After a block with transactions is indexed and committed, the index
    holds, under the key of the executing address and the block number, the
    encoded list of all the positions of the block: with the address accessor
    as it is, every transaction counts for the same address. *)
Theorem address_entry_after_createIndexesSync
    (indexer : blockchainIndexerSync)
    (openchainDB : db.OpenchainDB) (indexes : gmap (list byte) (list byte))
    (block : option protos.Block) (blockNumber : Z) (blockHash : list byte)
    (writeBatch : gorocksdb.WriteBatch) (tx : protos.Transaction) :
  protos.GetTransactions block <> [] ->
  indexes_after_commit indexer openchainDB indexes block blockNumber blockHash writeBatch
    !! encodeAddressBlockNumCompositeKey (getTxExecutingAddress tx) blockNumber
  = Some (encodeListTxIndexes
            (Z.of_nat <$> seq 0 (length (protos.GetTransactions block)))).
Proof.
  intros Hne. unfold indexes_after_commit.
  cbn [createIndexesSync blockchainIndexerSync_methods].
  rewrite (addIndexDataForPersistence_stub _ _ _ _ _ Hne). cbn [fst].
  unfold gorocksdb.commit.
  rewrite foldl_app. cbn [foldl].
  rewrite foldl_app. cbn [foldl gorocksdb.apply_put].
  apply lookup_insert_eq.
Qed.

Lemma address_entry_after_createIndexesSync_witness :
  let tx := protos.mkTransaction protos.Transaction_CHAINLET_EXECUTE None [] "u" in
  let block := Some (protos.mkBlock [tx; tx; tx] [] []) in
  protos.GetTransactions block <> [] /\
  indexes_after_commit newBlockchainIndexerSync (db.handle_over ∅) ∅
    block 7 [uint8 9] []
    !! encodeAddressBlockNumCompositeKey (getTxExecutingAddress tx) 7
  = Some (encodeListTxIndexes [0; 1; 2]).
Proof.
  intros tx block.
  assert (H : protos.GetTransactions block <> []) by discriminate.
  exact (conj H
           (address_entry_after_createIndexesSync newBlockchainIndexerSync
              (db.handle_over ∅) ∅ block 7 [uint8 9] [] tx H)).
Defined.

(** * The address entries and their values *)

(** Reading back a list of positions: the integers written one after the
    other are read one after the other, until the buffer ends. *)
Lemma decodeListTxIndexes_loop_flat_map (listTx : list Z) :
  Forall is_uint64 listTx ->
  forall (pre : list byte) (rounds : nat),
    (length listTx <= rounds)%nat ->
    decodeListTxIndexes_loop rounds
      (proto.mkBuffer (pre ++ flat_map proto.EncodeVarint listTx) (length pre))
    = (listTx, None).
Proof.
  induction 1 as [|x listTx Hx _ IH]; intros pre rounds Hrounds.
  - cbn [flat_map]. rewrite app_nil_r.
    destruct rounds; cbn [decodeListTxIndexes_loop proto.buf proto.index];
      [reflexivity|].
    now rewrite Nat.leb_refl.
  - destruct rounds as [|rounds]; [cbn [length] in Hrounds; lia|].
    cbn [flat_map decodeListTxIndexes_loop proto.buf proto.index].
    assert (Hlen : (0 < length (proto.EncodeVarint x))%nat).
    { destruct (proto.EncodeVarint x) eqn:E; [|cbn [length]; lia].
      exfalso. revert E. apply EncodeVarint_loop_nonempty.
      unfold proto.maxVarintBytes. lia. }
    destruct (length (pre ++ proto.EncodeVarint x ++ flat_map proto.EncodeVarint listTx)
              <=? length pre)%nat eqn:Hend.
    { apply Nat.leb_le in Hend. rewrite !length_app in Hend. lia. }
    rewrite (Buffer_DecodeVarint_EncodeVarint pre _ x Hx).
    rewrite app_assoc, <- length_app.
    rewrite IH by (cbn [length] in Hrounds; lia).
    reflexivity.
Qed.

Lemma length_flat_map_EncodeVarint (listTx : list Z) :
  (length listTx <= length (flat_map proto.EncodeVarint listTx))%nat.
Proof.
  induction listTx as [|x listTx IH]; cbn [flat_map length]; [lia|].
  rewrite length_app.
  assert (0 < length (proto.EncodeVarint x))%nat; [|lia].
  destruct (proto.EncodeVarint x) eqn:E; [|cbn [length]; lia].
  exfalso. revert E. apply EncodeVarint_loop_nonempty.
  unfold proto.maxVarintBytes. lia.
Qed.

Lemma decodeListTxIndexes_encodeListTxIndexes (listTx : list Z) :
  Forall is_uint64 listTx ->
  decodeListTxIndexes (encodeListTxIndexes listTx) = (listTx, None).
Proof.
  intros Hl. rewrite encodeListTxIndexes_bytes. unfold decodeListTxIndexes.
  apply (decodeListTxIndexes_loop_flat_map listTx Hl []).
  apply length_flat_map_EncodeVarint.
Qed.

(** The positions of a block are uint64 values as long as its number of
    transactions is one. *)
Lemma positions_uint64 (address : string) (transactions : list protos.Transaction) :
  Z.of_nat (length transactions) <= 2 ^ 64 ->
  Forall is_uint64 (positions address 0 transactions).
Proof.
  intros Hlen. apply Forall_forall. intros i Hi.
  apply elem_of_positions in Hi as (j & tx & Hj & _ & ->).
  apply lookup_lt_Some in Hj. split; lia.
Qed.

(** C5. Extraction emits one address entry per distinct executing address of
    the block: after the hash entry and the GUID entries the batch holds the
    entries of a list of pairs (address, positions) without repeated address,
    whose addresses are exactly the executing addresses of the block's
    transactions.  The value of the entry of an address is the ordered list of
    the positions of its transactions in the block: its bytes are the
    variable-width encodings of these positions one after the other, in
    increasing order, and (for a block whose number of transactions fits a
    uint64) reading the value back gives exactly that list.  Its key is the
    prefix byte 3, the address with its length in front, and the block
    number. *)
Theorem addIndexDataForPersistence_one_entry_per_address
    (openchainDB : db.OpenchainDB) (block : option protos.Block)
    (blockNumber : Z) (blockHash : list byte) (writeBatch : gorocksdb.WriteBatch) :
  exists entries : list (string * list Z),
    addIndexDataForPersistence openchainDB block blockNumber blockHash writeBatch
    = (writeBatch
         ++ hash_entry blockNumber blockHash
         :: guid_entries blockNumber 0 (protos.GetTransactions block)
         ++ ((fun entry =>
                gorocksdb.mkPut gorocksdb.IndexesCF
                  (encodeAddressBlockNumCompositeKey entry.1 blockNumber)
                  (encodeListTxIndexes entry.2)) <$> entries),
       None) /\
    NoDup entries.*1 /\
    (forall address : string,
        address ∈ entries.*1
        <-> address ∈ (getTxExecutingAddress <$> protos.GetTransactions block)) /\
    (forall (address : string) (txsIndexes : list Z),
        (address, txsIndexes) ∈ entries ->
        txsIndexes = positions address 0 (protos.GetTransactions block) /\
        txsIndexes <> [] /\
        StronglySorted Z.lt txsIndexes /\
        encodeAddressBlockNumCompositeKey address blockNumber
          = prefixAddressBlockNumCompositeKey
              :: proto.EncodeVarint (Z.of_nat (length (bytes_of_string address)))
              ++ bytes_of_string address ++ proto.EncodeVarint blockNumber /\
        encodeListTxIndexes txsIndexes
          = flat_map proto.EncodeVarint
              (positions address 0 (protos.GetTransactions block)) /\
        (Z.of_nat (length (protos.GetTransactions block)) <= 2 ^ 64 ->
         decodeListTxIndexes (encodeListTxIndexes txsIndexes)
           = (positions address 0 (protos.GetTransactions block), None))).
Proof.
  exists (map_to_list (txIndexes_of blockNumber (protos.GetTransactions block))).
  split; [apply addIndexDataForPersistence_entries|].
  split; [apply NoDup_fst_map_to_list|].
  split.
  - intros address. rewrite <- positions_nonempty with (txIndex := 0%nat).
    rewrite list_elem_of_fmap. split.
    + intros ([a l] & -> & Hin). apply elem_of_map_to_list in Hin.
      rewrite lookup_txIndexes_of in Hin. cbn [fst].
      destruct (positions a 0 (protos.GetTransactions block)); discriminate.
    + intros Hne.
      exists (address, positions address 0 (protos.GetTransactions block)).
      split; [reflexivity|]. apply elem_of_map_to_list.
      rewrite lookup_txIndexes_of.
      destruct (positions address 0 (protos.GetTransactions block)); [congruence|].
      reflexivity.
  - intros address txsIndexes Hin. apply elem_of_map_to_list in Hin.
    rewrite lookup_txIndexes_of in Hin.
    assert (Heq : txsIndexes = positions address 0 (protos.GetTransactions block)
                  /\ txsIndexes <> []).
    { destruct (positions address 0 (protos.GetTransactions block));
        [discriminate|]. injection Hin as <-. split; [reflexivity|discriminate]. }
    destruct Heq as [-> Hne].
    split; [reflexivity|]. split; [exact Hne|].
    split; [apply positions_sorted|].
    split; [apply encodeAddressBlockNumCompositeKey_bytes|].
    split; [apply encodeListTxIndexes_bytes|].
    intros Hlen. apply decodeListTxIndexes_encodeListTxIndexes.
    now apply positions_uint64.
Qed.

Lemma addIndexDataForPersistence_one_entry_per_address_witness :
  let tx := protos.mkTransaction protos.Transaction_CHAINLET_EXECUTE None [] "u" in
  let block := Some (protos.mkBlock [tx; tx; tx] [] []) in
  Z.of_nat (length (protos.GetTransactions block)) <= 2 ^ 64 /\
  exists entries : list (string * list Z),
    addIndexDataForPersistence (db.handle_over ∅) block 7 [uint8 9] []
    = ([] ++ hash_entry 7 [uint8 9]
          :: guid_entries 7 0 (protos.GetTransactions block)
          ++ ((fun entry =>
                 gorocksdb.mkPut gorocksdb.IndexesCF
                   (encodeAddressBlockNumCompositeKey entry.1 7)
                   (encodeListTxIndexes entry.2)) <$> entries),
        None) /\
    (forall (address : string) (txsIndexes : list Z),
        (address, txsIndexes) ∈ entries ->
        decodeListTxIndexes (encodeListTxIndexes txsIndexes)
          = (positions address 0 (protos.GetTransactions block), None)).
Proof.
  intros tx block.
  assert (H : Z.of_nat (length (protos.GetTransactions block)) <= 2 ^ 64)
    by discriminate.
  split; [exact H|].
  destruct (addIndexDataForPersistence_one_entry_per_address
              (db.handle_over ∅) block 7 [uint8 9] [])
    as (entries & Hbatch & _ & _ & Hvalues).
  exists entries. split; [exact Hbatch|].
  intros address txsIndexes Hin.
  destruct (Hvalues address txsIndexes Hin) as (_ & _ & _ & _ & _ & Hread).
  exact (Hread H).
Defined.

(** Scenario: three transactions of one address at positions 0, 1 and 2 give
    a single address entry, whose value is the three bytes 0, 1, 2 and reads
    back as the list of the three positions. *)
Example three_transactions_one_address_entry :
  let tx := protos.mkTransaction protos.Transaction_CHAINLET_EXECUTE None [] "u" in
  addIndexDataForPersistence (db.handle_over ∅)
    (Some (protos.mkBlock [tx; tx; tx] [] [])) 7 [uint8 9] []
  = ([gorocksdb.mkPut gorocksdb.IndexesCF [uint8 1; uint8 9] [uint8 7];
      gorocksdb.mkPut gorocksdb.IndexesCF
        (uint8 2 :: bytes_of_string "TODO:Fetch guid from Tx") [uint8 7; uint8 0];
      gorocksdb.mkPut gorocksdb.IndexesCF
        (uint8 2 :: bytes_of_string "TODO:Fetch guid from Tx") [uint8 7; uint8 1];
      gorocksdb.mkPut gorocksdb.IndexesCF
        (uint8 2 :: bytes_of_string "TODO:Fetch guid from Tx") [uint8 7; uint8 2];
      gorocksdb.mkPut gorocksdb.IndexesCF
        (uint8 3 :: uint8 8 :: bytes_of_string "address1" ++ [uint8 7])
        [uint8 0; uint8 1; uint8 2]],
     None)
  /\ decodeListTxIndexes [uint8 0; uint8 1; uint8 2] = ([0; 1; 2], None).
Proof. vm_compute. split; reflexivity. Qed.
